(** * translate_subs: the subtitle tokenizer and its document model

    A shallow embedding of [resources/lib/subtitles/subtitle.py]:
    the regular expression [line_regex], the classes [SrtFrase],
    [SrtLine], [SrtBlock] and [SrtDoc], and the properties of parsing
    and rendering that the specification states about them. *)

From Stdlib Require Import Ascii String.
From Stdlib Require Import List NArith ZArith Arith Bool Lia.
From Stdlib Require Import DecimalString.
Import ListNotations.

(* ===================================================================== *)
(** ** Python strings *)
(* ===================================================================== *)

(** A Python [str] is a sequence of Unicode code points. *)
Definition char := N.
Definition str := list char.

Definition ch (a : ascii) : char := N_of_ascii a.

(** [py "..."] is the [str] with the code points of an ASCII literal. *)
Definition py (s : string) : str := map ch (list_ascii_of_string s).

Definition NL : char := 10%N.

(** [str.isspace] on one code point, which is also the class [\s] of a
    [str] pattern: the code points CPython's [Py_UNICODE_ISSPACE] accepts. *)
Definition isspace (c : char) : bool :=
  ((9 <=? c) && (c <=? 13) || (28 <=? c) && (c <=? 32)
   || (c =? 133) || (c =? 160) || (c =? 5760)
   || (8192 <=? c) && (c <=? 8202)
   || (c =? 8232) || (c =? 8233) || (c =? 8239) || (c =? 8287)
   || (c =? 12288))%N.

Fixpoint lstrip (s : str) : str :=
  match s with
  | c :: s' => if isspace c then lstrip s' else s
  | [] => []
  end.

Definition rstrip (s : str) : str := rev (lstrip (rev s)).

(** [s.strip()] *)
Definition strip (s : str) : str := rstrip (lstrip s).

Fixpoint starts_with (p s : str) : bool :=
  match p, s with
  | [], _ => true
  | a :: p', b :: s' => (a =? b)%N && starts_with p' s'
  | _ :: _, [] => false
  end.

(** [s.split(sep)] for a non-empty [sep]: [skip] counts the code points of
    a separator already recognised that are still to be passed over, [cur]
    is the current piece, reversed. *)
Fixpoint split_go (sep : str) (skip : nat) (s : str) (cur : str) : list str :=
  match s with
  | [] => [rev cur]
  | c :: s' =>
      match skip with
      | S n => split_go sep n s' cur
      | O =>
          if starts_with sep s
          then rev cur :: split_go sep (length sep - 1) s' []
          else split_go sep 0 s' (c :: cur)
      end
  end.

Definition split (sep : str) (s : str) : list str := split_go sep 0 s [].

(** [sep.join(items)] *)
Fixpoint join (sep : str) (items : list str) : str :=
  match items with
  | [] => []
  | [x] => x
  | x :: rest => x ++ sep ++ join sep rest
  end.

(** [str(n)] for a non-negative [int]. *)
Definition str_of_nat (n : nat) : str :=
  py (NilZero.string_of_uint (Nat.to_uint n)).

Definition non_empty (s : str) : bool :=
  match s with [] => false | _ :: _ => true end.

(* ===================================================================== *)
(** ** Exceptions *)
(* ===================================================================== *)

Inductive exn : Type := IndexError | AttributeError | TypeError.

Inductive result (A : Type) : Type :=
| Ok (a : A)
| Raise (e : exn).
Arguments Ok {A} a.
Arguments Raise {A} e.

Definition bind {A B : Type} (r : result A) (f : A -> result B) : result B :=
  match r with
  | Ok a => f a
  | Raise e => Raise e
  end.

Declare Scope py_scope.
Delimit Scope py_scope with py.
Notation "x <- r ;; k" := (bind r (fun x => k))
  (at level 61, r at next level, right associativity) : py_scope.
Open Scope py_scope.

(** A list comprehension whose element expression may raise. *)
Fixpoint map_result {A B : Type} (f : A -> result B) (l : list A)
  : result (list B) :=
  match l with
  | [] => Ok []
  | a :: l' => b <- f a ;; bs <- map_result f l' ;; Ok (b :: bs)
  end.

(** [l[i]] *)
Definition getitem {A : Type} (l : list A) (i : nat) : result A :=
  match nth_error l i with
  | Some a => Ok a
  | None => Raise IndexError
  end.

(** Statements that update [self] and may raise: the state reached when
    the exception is raised is kept, as an object mutated in a [try] body
    keeps its mutations. *)
Definition stmt (S A : Type) : Type := S -> result A * S.

Definition sret {S A : Type} (a : A) : stmt S A := fun s => (Ok a, s).

Definition sbind {S A B : Type} (c : stmt S A) (f : A -> stmt S B)
  : stmt S B :=
  fun s => match c s with
           | (Ok a, s') => f a s'
           | (Raise e, s') => (Raise e, s')
           end.

Definition lift {S A : Type} (r : result A) : stmt S A := fun s => (r, s).

Definition modify {S : Type} (f : S -> S) : stmt S unit :=
  fun s => (Ok tt, f s).

Notation "x <~ c ;; k" := (sbind c (fun x => k))
  (at level 61, c at next level, right associativity) : py_scope.
Notation "c ;;; k" := (sbind c (fun _ => k))
  (at level 61, right associativity) : py_scope.

(** [try: body  except IndexError: pass] *)
Definition try_except_IndexError {S : Type} (body : stmt S unit)
  : stmt S unit :=
  fun s => match body s with
           | (Raise IndexError, s') => (Ok tt, s')
           | other => other
           end.

(* ===================================================================== *)
(** ** The regular expressions of [re] that [line_regex] uses *)
(* ===================================================================== *)

Module Re.

(** One-character items. *)
Inductive cset : Type :=
| Lit (c : char)          (* a literal character *)
| Space                   (* \s *)
| Dot                     (* .  : anything but a newline *)
| NoneOf (cs : list char) (* [^...] *).

Definition cset_mem (s : cset) (c : char) : bool :=
  match s with
  | Lit a => (a =? c)%N
  | Space => isspace c
  | Dot => negb (c =? NL)%N
  | NoneOf cs => negb (existsb (N.eqb c) cs)
  end.

Inductive regex : Type :=
| Atom (c : cset)
| Cat (r1 r2 : regex)          (* r1 r2 *)
| Or (r1 r2 : regex)           (* r1|r2 *)
| Star (r : regex)             (* r*  *)
| LazyStar (r : regex)         (* r*? *)
| Plus (r : regex)             (* r+  *)
| Opt (r : regex)              (* r?  *)
| Grp (n : nat) (r : regex)    (* (r), the n-th capturing group *)
| Cond (n : nat) (r : regex)   (* (?(n)r) *)
| Bol                          (* ^ *)
| After (c : cset)             (* (?<=c) *).

(** A sequence of items; the empty sequence matches the empty string. *)
Fixpoint cat (rs : list regex) : regex :=
  match rs with
  | [] => Opt Bol
  | [r] => r
  | r :: rs' => Cat r (cat rs')
  end.

Definition word (s : string) : regex :=
  cat (map (fun a => Atom (Lit (ch a))) (list_ascii_of_string s)).

(** The state of one matching attempt: the subject before the current
    position (nearest character first), the subject from the current
    position on, and the text each group that took part has captured. *)
Record mstate : Type := MState {
  before : str;
  after : str;
  marks : list (nat * str)
}.

Fixpoint lookup (n : nat) (ms : list (nat * str)) : option str :=
  match ms with
  | [] => None
  | (k, v) :: ms' => if Nat.eqb k n then Some v else lookup n ms'
  end.

Definition advance (st : mstate) : option (char * mstate) :=
  match after st with
  | [] => None
  | c :: rest => Some (c, MState (c :: before st) rest (marks st))
  end.

(** The text passed over between [st] and a later state [st']. *)
Definition consumed (st st' : mstate) : str :=
  firstn (length (after st) - length (after st')) (after st).

Definition close_group (n : nat) (st st' : mstate) : mstate :=
  MState (before st') (after st') ((n, consumed st st') :: marks st').

Definition progressed (st st' : mstate) : bool :=
  length (after st') <? length (after st).

Definition cont : Type := mstate -> option mstate.

Definition orelse (a : option mstate) (b : unit -> option mstate)
  : option mstate :=
  match a with
  | Some r => Some r
  | None => b tt
  end.

(** Greedy repetition: another iteration is tried first, the rest of the
    pattern second.  An iteration that passed over nothing is not
    repeated.  Every further iteration starts strictly later in the
    subject, so [fuel] above the length of what is left is never used up. *)
Fixpoint greedy (body : cont -> cont) (k : cont) (fuel : nat) (st : mstate)
  : option mstate :=
  match fuel with
  | O => k st
  | S fuel' =>
      orelse
        (body (fun st' => if progressed st st'
                          then greedy body k fuel' st'
                          else k st') st)
        (fun _ => k st)
  end.

(** Lazy repetition: the rest of the pattern is tried first. *)
Fixpoint lazy (body : cont -> cont) (k : cont) (fuel : nat) (st : mstate)
  : option mstate :=
  match fuel with
  | O => k st
  | S fuel' =>
      orelse (k st)
        (fun _ => body (fun st' => if progressed st st'
                                   then lazy body k fuel' st'
                                   else None) st)
  end.

(** The backtracking matcher: [run r k st] matches [r] at [st] and hands
    the state it reaches to [k], the rest of the pattern; when [k] fails
    the next way of matching [r] is tried, in the order [re] tries them. *)
Fixpoint run (r : regex) (k : cont) (st : mstate) {struct r}
  : option mstate :=
  match r with
  | Atom c =>
      match advance st with
      | Some (x, st') => if cset_mem c x then k st' else None
      | None => None
      end
  | Cat r1 r2 => run r1 (run r2 k) st
  | Or r1 r2 => orelse (run r1 k st) (fun _ => run r2 k st)
  | Star r' => greedy (run r') k (S (length (after st))) st
  | LazyStar r' => lazy (run r') k (S (length (after st))) st
  | Plus r' =>
      run r' (fun st' => greedy (run r') k (S (length (after st'))) st') st
  | Opt r' => orelse (run r' k st) (fun _ => k st)
  | Grp n r' => run r' (fun st' => k (close_group n st st')) st
  | Cond n r' =>
      match lookup n (marks st) with
      | Some _ => run r' k st
      | None => k st
      end
  | Bol => match before st with [] => k st | _ :: _ => None end
  | After c =>
      match before st with
      | x :: _ => if cset_mem c x then k st else None
      | [] => None
      end
  end.

(** A match object: the groups that took part, and where the match ends. *)
Record Match : Type := MkMatch {
  groups : list (nat * str);
  rest_before : str;
  rest_after : str
}.

(** [match.group(n)], [None] for a group that took no part. *)
Definition group (mt : Match) (n : nat) : option str := lookup n (groups mt).

(** One [search] anchored at the current position. *)
Definition match_at (r : regex) (bef aft : str) : option mstate :=
  run r (fun st => Some st) (MState bef aft []).

(** [pattern.finditer(text)]: scan from left to right; after a match the
    scan resumes where the match ended, and one character further on when
    nothing matched.  [line_regex] and its pieces never match the empty
    string, so the treatment of empty matches by [re] plays no part; the
    scan moves one character on after one. *)
Fixpoint finditer_from (r : regex) (fuel : nat) (bef aft : str)
  : list Match :=
  match fuel with
  | O => []
  | S fuel' =>
      match match_at r bef aft with
      | Some st =>
          MkMatch (marks st) (before st) (after st) ::
          (if length (after st) <? length aft
           then finditer_from r fuel' (before st) (after st)
           else match aft with
                | [] => []
                | c :: aft' => finditer_from r fuel' (c :: bef) aft'
                end)
      | None =>
          match aft with
          | [] => []
          | c :: aft' => finditer_from r fuel' (c :: bef) aft'
          end
      end
  end.

Definition finditer (r : regex) (text : str) : list Match :=
  finditer_from r (S (length text)) [] text.

End Re.

Import Re.

(* ===================================================================== *)
(** ** subtitle.py *)
(* ===================================================================== *)

Definition lt_ : char := ch "<".
Definition gt_ : char := ch ">".
Definition slash_ : char := ch "/".
Definition f_ : char := ch "f".

(** [<\s*font[^>]*>] *)
Definition re_open_font : regex :=
  cat [Atom (Lit lt_); Star (Atom Space); word "font";
       Star (Atom (NoneOf [gt_])); Atom (Lit gt_)].

(** [<\s*[^/f][^>]*>] *)
Definition re_open_other : regex :=
  cat [Atom (Lit lt_); Star (Atom Space); Atom (NoneOf [slash_; f_]);
       Star (Atom (NoneOf [gt_])); Atom (Lit gt_)].

(** [<\s*/[^f][^>]*>] *)
Definition re_close_other : regex :=
  cat [Atom (Lit lt_); Star (Atom Space); Atom (Lit slash_);
       Atom (NoneOf [f_]); Star (Atom (NoneOf [gt_])); Atom (Lit gt_)].

(** [<\s*/font\s*] *)
Definition re_close_font : regex :=
  cat [Atom (Lit lt_); Star (Atom Space); word "/font"; Star (Atom Space)].

(** [[^<>]+] *)
Definition re_plain : regex := Plus (Atom (NoneOf [lt_; gt_])).

(** [line_regex], piece by piece as the pattern is written:
    group 1 [<\s*font[^>]*>], an optional [<\s*[^/f][^>]*>], group 2 [.*?],
    an optional [<\s*/[^f][^>]*>], group 3 which is one or more
    [(?(1)<\s*/font\s* )] and then [>]; or else, at [^] or behind a [>],
    group 4 [[^<>]+]. *)
Definition re_tagged : regex :=
  cat [Grp 1 re_open_font;
       Opt re_open_other;
       Grp 2 (LazyStar (Atom Dot));
       Opt re_close_other;
       Grp 3 (Cat (Plus (Cond 1 re_close_font)) (Atom (Lit gt_)))].

Definition re_untagged : regex :=
  cat [Or Bol (After (Lit gt_));
       Grp 4 re_plain].

Definition line_regex : regex := Or re_tagged re_untagged.

Module SrtFrase.

Record t : Type := Build {
  _ignore_col : bool;
  open_tags : str;
  _text : str;
  closing_tags : str
}.

(** [x or ''] for [x] a [str] or [None]. *)
Definition or_empty (x : option str) : str :=
  match x with
  | Some (c :: s) => c :: s
  | _ => []
  end.

(** [self._ignore_col = ignore_colours; self.open_tags = open_tags or '';
    self._text = text.strip(); self.closing_tags = closing_tags or ''] *)
Definition __init__ (text : str) (open_tags closing_tags : option str)
    (ignore_colours : bool) : t :=
  {| _ignore_col := ignore_colours;
     open_tags := or_empty open_tags;
     _text := strip text;
     closing_tags := or_empty closing_tags |}.

(** The [text] property and its setter. *)
Definition text (self : t) : str := _text self.

Definition set_text (self : t) (value : str) : t :=
  {| _ignore_col := _ignore_col self;
     open_tags := open_tags self;
     _text := value;
     closing_tags := closing_tags self |}.

(** [if self._text:] either [self._text], when [self._ignore_col], or
    [''.join((self.open_tags, self._text, self.closing_tags))];
    [else: ''] *)
Definition __str__ (self : t) : str :=
  if non_empty (_text self) then
    if _ignore_col self then _text self
    else join [] [open_tags self; _text self; closing_tags self]
  else [].

Definition __bool__ (self : t) : bool := non_empty (_text self).

End SrtFrase.

Module SrtLine.

Record t : Type := Build {
  _ignore_col : bool;
  _frases : list SrtFrase.t
}.

(** [a or b] on values that are a [str] or [None]. *)
Definition py_or (a b : option str) : option str :=
  match a with
  | Some (_ :: _) => a
  | _ => b
  end.

(** [x.strip()], where [x] may be [None]. *)
Definition strip_of (x : option str) : result str :=
  match x with
  | Some s => Ok (strip s)
  | None => Raise AttributeError
  end.

(** The loop of [_parse_text] over [line_regex.finditer(text)], threading
    [self._frases]:
    [text = match.group(4) or match.group(2); text = text.strip();
     if text: self._frases.append(SrtFrase(text, match.group(1),
                                           match.group(3), ignor_col))] *)
Fixpoint _parse_text (frases : list SrtFrase.t) (ms : list Match)
    (ignor_col : bool) : result (list SrtFrase.t) :=
  match ms with
  | [] => Ok frases
  | mt :: ms' =>
      text <- strip_of (py_or (group mt 4) (group mt 2)) ;;
      if non_empty text
      then _parse_text
             (frases ++ [SrtFrase.__init__ text (group mt 1) (group mt 3)
                           ignor_col])
             ms' ignor_col
      else _parse_text frases ms' ignor_col
  end.

Definition __init__ (text : str) (ignore_colours : bool) : result t :=
  frases <- _parse_text [] (finditer line_regex text) ignore_colours ;;
  Ok {| _ignore_col := ignore_colours; _frases := frases |}.

(** [' '.join(str(frase) for frase in self._frases)] when there is a
    frase, [''] when there is none. *)
Definition __str__ (self : t) : str :=
  match _frases self with
  | [] => []
  | _ :: _ => join (py " ") (map SrtFrase.__str__ (_frases self))
  end.

Definition __bool__ (self : t) : bool :=
  match _frases self with [] => false | _ :: _ => true end.

Definition __iter__ (self : t) : list SrtFrase.t := _frases self.

End SrtLine.

Module SrtBlock.

(** [text] is the attribute that only the [text] setter of [SrtDoc]
    creates: [None] as long as the object has no such attribute. *)
#[local] Set Warnings "-register-all".
Inductive t : Type := Build {
  idx : str;
  _time : str;
  lines : list SrtLine.t;
  text : option t
}.

Definition set_idx (v : str) (self : t) : t :=
  Build v (_time self) (lines self) (text self).

Definition set_time (v : str) (self : t) : t :=
  Build (idx self) v (lines self) (text self).

Definition append_line (l : SrtLine.t) (self : t) : t :=
  Build (idx self) (_time self) (lines self ++ [l]) (text self).

Definition set_text (v : t) (self : t) : t :=
  Build (idx self) (_time self) (lines self) (Some v).

(** The [for line in lines[2:]] loop of [_parse]:
    [line_obj = SrtLine(line.strip(), ignore_colours=no_col);
     if line_obj: self.lines.append(line_obj)] *)
Fixpoint parse_lines (ls : list str) (no_col : bool) : stmt t unit :=
  match ls with
  | [] => sret tt
  | line :: ls' =>
      line_obj <~ lift (SrtLine.__init__ (strip line) no_col) ;;
      (if SrtLine.__bool__ line_obj
       then modify (append_line line_obj)
       else sret tt) ;;;
      parse_lines ls' no_col
  end.

(** [lines = block_str.strip().split('\n')], then inside [try]:
    [self.idx = lines[0]; self._time = lines[1]] and the loop;
    [except IndexError: pass]. *)
Definition _parse (block_str : str) (no_col : bool) : stmt t unit :=
  let lines := split [NL] (strip block_str) in
  try_except_IndexError
    (v <~ lift (getitem lines 0) ;;
     modify (set_idx v) ;;;
     v <~ lift (getitem lines 1) ;;
     modify (set_time v) ;;;
     parse_lines (skipn 2 lines) no_col).

(** [self.idx = ''; self._time = ''; self.lines = []] and then [_parse];
    an exception that [_parse] lets through leaves no object. *)
Definition __init__ (block_str : str) (ignore_colours : bool) : result t :=
  match _parse block_str ignore_colours (Build [] [] [] None) with
  | (Ok _, self) => Ok self
  | (Raise e, _) => Raise e
  end.

Definition __bool__ (self : t) : bool :=
  match lines self with [] => false | _ :: _ => true end.

(** ['\n'.join((self.idx, self._time,
                *(str(line) for line in self.lines if line), '\n'))]
    when the block has a line, [''] when it has none. *)
Definition __str__ (self : t) : str :=
  if __bool__ self
  then join [NL]
         ([idx self; _time self]
          ++ map SrtLine.__str__ (filter SrtLine.__bool__ (lines self))
          ++ [[NL]])
  else [].

Definition __iter__ (self : t) : list SrtFrase.t :=
  flat_map SrtLine.__iter__ (lines self).

End SrtBlock.

Module SrtDoc.

Record t : Type := Build {
  blocks : list SrtBlock.t
}.

(** [blocks = srt_doc.split('\n\n');
     self.blocks = [SrtBlock(block, ignore_colours)
                    for block in blocks if block]] *)
Definition __init__ (srt_doc : str) (ignore_colours : bool) : result t :=
  bs <- map_result (fun block => SrtBlock.__init__ block ignore_colours)
          (filter non_empty (split [NL; NL] srt_doc)) ;;
  Ok {| blocks := bs |}.

(** [block.text] *)
Definition getattr_text (block : SrtBlock.t) : result SrtBlock.t :=
  match SrtBlock.text block with
  | Some v => Ok v
  | None => Raise AttributeError
  end.

(** [''.join(items)] when the items are [SrtBlock] objects: [join] takes
    the whole iterable first and then refuses the first item, which is no
    [str]. *)
Definition join_blocks (items : list SrtBlock.t) : result str :=
  match items with
  | [] => Ok []
  | _ :: _ => Raise TypeError
  end.

(** The [text] property: [''.join(block.text for block in self.blocks)]. *)
Definition text (self : t) : result str :=
  items <- map_result getattr_text (blocks self) ;;
  join_blocks items.

(** The loop of the [text] setter,
    [for orig, trans in zip(self.blocks, value.blocks): orig.text = trans];
    the attribute holds the block as it is at the assignment. *)
Fixpoint assign_text (origs transs : list SrtBlock.t) : list SrtBlock.t :=
  match origs, transs with
  | orig :: origs', trans :: transs' =>
      SrtBlock.set_text trans orig :: assign_text origs' transs'
  | _, _ => origs
  end.

Definition set_text (self : t) (value : t) : t :=
  {| blocks := assign_text (blocks self) (blocks value) |}.

(** [block_iter] inside [__str__], started with [idx = 1]:
    [for block in self.blocks:
       if block: block.idx = str(idx); idx += 1; yield str(block)];
    the strings it yields, and the blocks as the loop leaves them. *)
Fixpoint block_iter (idx : nat) (bs : list SrtBlock.t)
  : list str * list SrtBlock.t :=
  match bs with
  | [] => ([], [])
  | block :: bs' =>
      if SrtBlock.__bool__ block then
        let block' := SrtBlock.set_idx (str_of_nat idx) block in
        let (out, rest) := block_iter (idx + 1) bs' in
        (SrtBlock.__str__ block' :: out, block' :: rest)
      else
        let (out, rest) := block_iter idx bs' in
        (out, block :: rest)
  end.

(** [''.join(block_str for block_str in block_iter())]: [__str__] returns
    the text and leaves the document renumbered. *)
Definition __str__ (self : t) : str * t :=
  let (out, bs) := block_iter 1 (blocks self) in
  (join [] out, {| blocks := bs |}).

(** The generator that [frases()] returns,
    [for block in self.blocks: for line in block.lines: yield from line]:
    the blocks still to visit, the lines of the current block still to
    visit, and what is left of the iterator over the current line. *)
Record generator : Type := Gen {
  g_blocks : list SrtBlock.t;
  g_lines : list SrtLine.t;
  g_frases : list SrtFrase.t
}.

Definition frases (self : t) : generator := Gen (blocks self) [] [].

Fixpoint next_in_lines (ls : list SrtLine.t)
  : option (SrtFrase.t * list SrtFrase.t * list SrtLine.t) :=
  match ls with
  | [] => None
  | line :: ls' =>
      match SrtLine.__iter__ line with
      | f :: fs => Some (f, fs, ls')
      | [] => next_in_lines ls'
      end
  end.

Fixpoint next_in_blocks (bs : list SrtBlock.t)
  : option (SrtFrase.t * generator) :=
  match bs with
  | [] => None
  | block :: bs' =>
      match next_in_lines (SrtBlock.lines block) with
      | Some (f, fs, ls) => Some (f, Gen bs' ls fs)
      | None => next_in_blocks bs'
      end
  end.

(** [next(g)]: the frase yielded and the generator afterwards, or [None]
    for [StopIteration]. *)
Definition next (g : generator) : option (SrtFrase.t * generator) :=
  match g_frases g with
  | f :: fs => Some (f, Gen (g_blocks g) (g_lines g) fs)
  | [] =>
      match next_in_lines (g_lines g) with
      | Some (f, fs, ls) => Some (f, Gen (g_blocks g) ls fs)
      | None => next_in_blocks (g_blocks g)
      end
  end.

(** What a generator has still to yield. *)
Definition remaining (g : generator) : list SrtFrase.t :=
  g_frases g ++ flat_map SrtLine.__iter__ (g_lines g)
  ++ flat_map SrtBlock.__iter__ (g_blocks g).

(** [list(g)], by calling [next] until [StopIteration]; [None] when
    [fuel] calls were not enough. *)
Fixpoint drain (fuel : nat) (g : generator) : option (list SrtFrase.t) :=
  match fuel with
  | O => None
  | S fuel' =>
      match next g with
      | None => Some []
      | Some (f, g') =>
          match drain fuel' g' with
          | Some fs => Some (f :: fs)
          | None => None
          end
      end
  end.

End SrtDoc.

(* ===================================================================== *)
(** ** utils.py *)
(* ===================================================================== *)

Module Utils.

Inductive exc : Type :=
  ValueError | IndexError | OverflowError | ZeroDivisionError.

Inductive res (A : Type) : Type :=
| Ret (a : A)
| Throw (e : exc).
Arguments Ret {A} a.
Arguments Throw {A} e.

Definition and_then {A B : Type} (r : res A) (f : A -> res B) : res B :=
  match r with
  | Ret a => f a
  | Throw e => Throw e
  end.

Notation "x <== r ;; k" := (and_then r (fun x => k))
  (at level 61, r at next level, right associativity).

(** [l[i]] *)
Definition item {A : Type} (l : list A) (i : nat) : res A :=
  match nth_error l i with
  | Some a => Ret a
  | None => Throw IndexError
  end.

(** [sub in s] *)
Fixpoint str_in (sub s : str) : bool :=
  starts_with sub s
  || match s with
     | [] => false
     | _ :: s' => str_in sub s'
     end.

(** [c in s] for one character. *)
Definition char_in (c : char) (s : str) : bool := existsb (N.eqb c) s.

(** [s.split()]: the maximal runs without white space; [cur] is the
    current run, reversed. *)
Fixpoint split_ws_go (s cur : str) : list str :=
  match s with
  | [] => if non_empty cur then [rev cur] else []
  | c :: s' =>
      if isspace c
      then if non_empty cur
           then rev cur :: split_ws_go s' []
           else split_ws_go s' []
      else split_ws_go s' (c :: cur)
  end.

Definition split_ws (s : str) : list str := split_ws_go s [].

(** The line boundaries of [str.splitlines]. *)
Definition is_linebreak (c : char) : bool :=
  ((10 <=? c) && (c <=? 13) || (28 <=? c) && (c <=? 30)
   || (c =? 133) || (c =? 8232) || (c =? 8233))%N.

(** [s.splitlines()]; a carriage return and the line feed after it are
    one boundary, and no empty last line is reported. *)
Fixpoint splitlines_go (s cur : str) : list str :=
  match s with
  | [] => if non_empty cur then [rev cur] else []
  | c :: s' =>
      if is_linebreak c
      then rev cur ::
           match s' with
           | d :: s'' =>
               if (c =? 13)%N && (d =? 10)%N
               then splitlines_go s'' []
               else splitlines_go s' []
           | [] => []
           end
      else splitlines_go s' (c :: cur)
  end.

Definition splitlines (s : str) : list str := splitlines_go s [].

Fixpoint str_eqb (a b : str) : bool :=
  match a, b with
  | [], [] => true
  | x :: a', y :: b' => (x =? y)%N && str_eqb a' b'
  | _, _ => false
  end.

(** A [dict] from [str] to [str], its items in insertion order. *)
Definition dict : Type := list (str * str).

(** [d[key] = value]: an existing key keeps its place. *)
Fixpoint dict_set (key value : str) (d : dict) : dict :=
  match d with
  | [] => [(key, value)]
  | (k, v) :: d' =>
      if str_eqb k key then (k, value) :: d'
      else (k, v) :: dict_set key value d'
  end.

(** [d.get(key)] *)
Fixpoint dict_get (key : str) (d : dict) : option str :=
  match d with
  | [] => None
  | (k, v) :: d' => if str_eqb k key then Some v else dict_get key d'
  end.

(** The loop of [extract_progress_info] over [parts], threading
    [progress_data]:
    [if '=' in part: key, value = part.split('='); progress_data[key] = value];
    unpacking anything but two pieces raises ValueError. *)
Fixpoint fill_progress (parts : list str) (progress_data : dict) : res dict :=
  match parts with
  | [] => Ret progress_data
  | part :: parts' =>
      if char_in (ch "=") part then
        match split [ch "="] part with
        | [key; value] =>
            fill_progress parts' (dict_set key value progress_data)
        | _ => Throw ValueError
        end
      else fill_progress parts' progress_data
  end.

(** [if 'time=' not in line: return None], then the loop over
    [line.strip().split()] from an empty dict. *)
Definition extract_progress_info (line : str) : res (option dict) :=
  if negb (str_in (py "time=") line) then Ret None
  else progress_data <== fill_progress (split_ws (strip line)) [] ;;
       Ret (Some progress_data).

Section Builtins.

(** [int(s)] for a [str], [None] when it raises ValueError. *)
Variable int : str -> option Z.

(** Python numbers, with the conversion of an [int], [/] and [+], which
    may raise on numbers. *)
Variable num : Type.
Variable of_int : Z -> num.
Variable truediv : num -> num -> res num.
Variable add : num -> num -> res num.

Definition int_of (s : str) : res Z :=
  match int s with
  | Some z => Ret z
  | None => Throw ValueError
  end.

(** [h, m, s = duration_str.split(':'); s, ms = s.split('.');
     return int(h) * 3600 + int(m) * 60 + int(s) + int(ms) / 100] *)
Definition duration_str_to_seconds (duration_str : str) : res num :=
  match split [ch ":"] duration_str with
  | [h; m; s] =>
      match split [ch "."] s with
      | [s; ms] =>
          h <== int_of h ;;
          m <== int_of m ;;
          s <== int_of s ;;
          ms <== int_of ms ;;
          frac <== truediv (of_int ms) (of_int 100) ;;
          add (of_int (h * 3600 + m * 60 + s)) frac
      | _ => Throw ValueError
      end
  | _ => Throw ValueError
  end.

(** The loop of [get_video_duration] over [result.stderr.splitlines()]:
    [if 'Duration' in line:
       duration_str = line.split('Duration: ')[1].split(',')[0];
       return duration_str_to_seconds(duration_str)];
    [return None] after the loop. *)
Fixpoint scan_duration (lines : list str) : res (option num) :=
  match lines with
  | [] => Ret None
  | line :: lines' =>
      if str_in (py "Duration") line then
        piece <== item (split (py "Duration: ") line) 1 ;;
        duration_str <== item (split [ch ","] piece) 0 ;;
        seconds <== duration_str_to_seconds duration_str ;;
        Ret (Some seconds)
      else scan_duration lines'
  end.

(** [get_video_duration], given the text that [ffmpeg -i video_file]
    wrote to its standard error. *)
Definition get_video_duration (stderr : str) : res (option num) :=
  scan_duration (splitlines stderr).

End Builtins.

End Utils.

(* ===================================================================== *)
(** ** service.py *)
(* ===================================================================== *)

Module Service.

(** [PlayerMonitor], as far as its callbacks decide whether to call
    [_execute_subtitles_translation]. *)
Record PlayerMonitor : Type := Build {
  _subtitles_may_be_downloaded : bool
}.

(** [__init__] *)
Definition __init__ : PlayerMonitor :=
  {| _subtitles_may_be_downloaded := false |}.

(** A callback from the player, with what the settings and the window
    manager answer while it runs: [getSettingBool('run_on_start')],
    [getSettingBool('run_on_pause')] and
    [getCondVisibility('Window.IsActive(subtitlesearch)')]. *)
Inductive callback : Type :=
| onAVStarted (run_on_start : bool)
| onPlayBackPaused (run_on_pause subtitlesearch_active : bool)
| onPlayBackResumed (run_on_pause : bool).

(** One callback: the object afterwards, and whether the callback called
    [_execute_subtitles_translation]. *)
Definition handle (self : PlayerMonitor) (cb : callback)
  : PlayerMonitor * bool :=
  match cb with
  | onAVStarted run_on_start =>
      if negb run_on_start then (self, false) else (self, true)
  | onPlayBackPaused run_on_pause subtitlesearch_active =>
      if run_on_pause then
        if subtitlesearch_active
        then ({| _subtitles_may_be_downloaded := true |}, false)
        else (self, true)
      else (self, false)
  | onPlayBackResumed run_on_pause =>
      if run_on_pause && _subtitles_may_be_downloaded self
      then ({| _subtitles_may_be_downloaded := false |}, true)
      else (self, false)
  end.

(** A sequence of callbacks, one after the other. *)
Fixpoint handle_all (self : PlayerMonitor) (cbs : list callback)
  : PlayerMonitor * list bool :=
  match cbs with
  | [] => (self, [])
  | cb :: cbs' =>
      let (self', called) := handle self cb in
      let (self'', calls) := handle_all self' cbs' in
      (self'', called :: calls)
  end.

(** In [_execute_subtitles_translation]:
    [video_file = self.getPlayingFile().split('?')[0]] *)
Definition video_file_of (playing_file : str) : Utils.res str :=
  Utils.item (split [ch "?"] playing_file) 0.

(** In [_execute_subtitles_translation], once the translation is there:
    [if video_file not in self.getPlayingFile(): return]; [true] when
    the method goes on. *)
Definition still_playing (video_file playing_file : str) : bool :=
  Utils.str_in video_file playing_file.

End Service.

(* ===================================================================== *)
(** ** What a successful match looks like *)
(* ===================================================================== *)

(** [matches r st st']: some way of matching [r] leads from [st] to [st'].
    The order in which [run] tries the ways is left out. *)
Inductive matches : regex -> mstate -> mstate -> Prop :=
| M_atom : forall c x st st',
    advance st = Some (x, st') -> cset_mem c x = true ->
    matches (Atom c) st st'
| M_cat : forall r1 r2 st st1 st2,
    matches r1 st st1 -> matches r2 st1 st2 -> matches (Cat r1 r2) st st2
| M_or_l : forall r1 r2 st st',
    matches r1 st st' -> matches (Or r1 r2) st st'
| M_or_r : forall r1 r2 st st',
    matches r2 st st' -> matches (Or r1 r2) st st'
| M_star_stop : forall r st, matches (Star r) st st
| M_star_more : forall r st st1 st2,
    matches r st st1 -> matches (Star r) st1 st2 -> matches (Star r) st st2
| M_lazy_stop : forall r st, matches (LazyStar r) st st
| M_lazy_more : forall r st st1 st2,
    matches r st st1 -> matches (LazyStar r) st1 st2 ->
    matches (LazyStar r) st st2
| M_plus : forall r st st1 st2,
    matches r st st1 -> matches (Star r) st1 st2 -> matches (Plus r) st st2
| M_opt_skip : forall r st, matches (Opt r) st st
| M_opt_take : forall r st st', matches r st st' -> matches (Opt r) st st'
| M_grp : forall n r st st',
    matches r st st' -> matches (Grp n r) st (close_group n st st')
| M_cond_yes : forall n r v st st',
    lookup n (marks st) = Some v -> matches r st st' ->
    matches (Cond n r) st st'
| M_cond_no : forall n r st,
    lookup n (marks st) = None -> matches (Cond n r) st st
| M_bol : forall st, before st = [] -> matches Bol st st
| M_after : forall c x bef st,
    before st = x :: bef -> cset_mem c x = true -> matches (After c) st st.

(** Patterns made of characters, sequence, choice and repetition only. *)
Fixpoint plain (r : regex) : bool :=
  match r with
  | Atom _ => true
  | Cat a b | Or a b => plain a && plain b
  | Star a | LazyStar a | Plus a | Opt a => plain a
  | Grp _ _ | Cond _ _ | Bol | After _ => false
  end.

(** The words of a plain pattern. *)
Fixpoint lang (r : regex) (w : str) : Prop :=
  match r with
  | Atom c => exists x, w = [x] /\ cset_mem c x = true
  | Cat a b => exists u v, w = u ++ v /\ lang a u /\ lang b v
  | Or a b => lang a w \/ lang b w
  | Star a | LazyStar a => exists ws, w = concat ws /\ Forall (lang a) ws
  | Plus a => exists u ws, w = u ++ concat ws /\ lang a u /\ Forall (lang a) ws
  | Opt a => w = [] \/ lang a w
  | Grp _ _ | Cond _ _ | Bol | After _ => False
  end.

Definition all_space (s : str) : Prop := Forall (fun c => isspace c = true) s.

(** An opening font tag: [<], white space, [font], anything without [>],
    then [>]. *)
Definition open_font_tag (s : str) : Prop :=
  exists ws attrs,
    s = lt_ :: ws ++ py "font" ++ attrs ++ [gt_] /\
    all_space ws /\ ~ In gt_ attrs.

(** A closing font token: [<], white space, [/font], white space; the [>]
    is not part of it. *)
Definition close_font_token (s : str) : Prop :=
  exists ws1 ws2,
    s = lt_ :: ws1 ++ py "/font" ++ ws2 /\ all_space ws1 /\ all_space ws2.

(** Counting tokens in a captured group with the patterns of [line_regex]
    themselves. *)
Definition count_open_font (s : str) : nat :=
  length (finditer re_open_font s).

Definition count_close_font (s : str) : nat :=
  length (finditer re_close_font s).

(** A match of the first alternative of [line_regex]. *)
Definition tagged_run (mt : Match) : Prop := group mt 1 <> None.

(* ===================================================================== *)
(** ** Notions the specification uses *)
(* ===================================================================== *)

(** A line without markup has no angle bracket. *)
Definition no_markup (line : str) : Prop := ~ In lt_ line /\ ~ In gt_ line.

Definition SP : char := ch " ".

(** Every run of white space becomes one space; [in_run] tells whether the
    previous character was white space. *)
Fixpoint collapse_runs (in_run : bool) (s : str) : str :=
  match s with
  | [] => []
  | c :: s' =>
      if isspace c
      then if in_run then collapse_runs true s' else SP :: collapse_runs true s'
      else c :: collapse_runs false s'
  end.

(** The white-space normal form in the specification's words: leading and
    trailing white space removed, interior runs collapsed to one space. *)
Definition spec_ws_normalized (line : str) : str :=
  collapse_runs false (strip line).

(** The blocks that [render] keeps. *)
Definition survivors (d : SrtDoc.t) : list SrtBlock.t :=
  filter SrtBlock.__bool__ (SrtDoc.blocks d).

(** Document render in the specification's words: the surviving blocks
    in order, the [i]-th rendered under the index [str(i)], counting from
    1, and nothing between them. *)
Definition spec_render (d : SrtDoc.t) : str :=
  concat (map (fun ib => SrtBlock.__str__
                           (SrtBlock.set_idx (str_of_nat (fst ib)) (snd ib)))
              (combine (seq 1 (length (survivors d))) (survivors d))).

(** Document -> Block -> Line -> Span, in document order. *)
Definition document_order (d : SrtDoc.t) : list SrtFrase.t :=
  flat_map (fun block => flat_map SrtLine._frases (SrtBlock.lines block))
           (SrtDoc.blocks d).

(** [f l[n]] in place of [l[n]]. *)
Fixpoint map_at {A : Type} (n : nat) (f : A -> A) (l : list A) : list A :=
  match l, n with
  | [], _ => []
  | a :: l', O => f a :: l'
  | a :: l', S n' => a :: map_at n' f l'
  end.

(** [doc.blocks[bi].lines[li]._frases[fi].text = value]: what an assignment
    through a frase that the traversal yielded does to the document. *)
Definition set_frase_text (bi li fi : nat) (value : str) (d : SrtDoc.t)
  : SrtDoc.t :=
  {| SrtDoc.blocks :=
       map_at bi
         (fun b =>
            SrtBlock.Build (SrtBlock.idx b) (SrtBlock._time b)
              (map_at li
                 (fun l =>
                    SrtLine.Build (SrtLine._ignore_col l)
                      (map_at fi (fun f => SrtFrase.set_text f value)
                         (SrtLine._frases l)))
                 (SrtBlock.lines b))
              (SrtBlock.text b))
         (SrtDoc.blocks d) |}.

(** What the code can do to a document without adding or removing a block
    or a line: assign the text of a frase, render (which renumbers), and
    assign the document-level text. *)
Inductive non_structural : SrtDoc.t -> SrtDoc.t -> Prop :=
| ns_same : forall d, non_structural d d
| ns_frase_text : forall d d' bi li fi value,
    non_structural d d' ->
    non_structural d (set_frase_text bi li fi value d')
| ns_render : forall d d',
    non_structural d d' -> non_structural d (snd (SrtDoc.__str__ d'))
| ns_doc_text : forall d d' value,
    non_structural d d' -> non_structural d (SrtDoc.set_text d' value).

(** The same frase object, whatever text it holds by now. *)
Definition same_frase (f f' : SrtFrase.t) : Prop :=
  f' = SrtFrase.set_text f (SrtFrase.text f').

(* ===================================================================== *)
(** ** Auxiliary notions *)
(* ===================================================================== *)

(** A string that does not begin with white space. *)
Definition clean_head (s : str) : Prop :=
  match s with
  | c :: _ => isspace c = false
  | [] => True
  end.

(** [body] only succeeds along a way of matching [r]. *)
Definition sound_body (r : regex) (body : cont -> cont) : Prop :=
  forall k st res, body k st = Some res ->
    exists st', matches r st st' /\ k st' = Some res.

(** [st'] is [st] moved forward over some text. *)
Definition moves (st st' : mstate) : Prop :=
  exists w, after st = w ++ after st' /\ before st' = rev w ++ before st.

(** A run of literal characters, as [word] builds it. *)
Definition lits (cs : list char) : regex :=
  cat (map (fun c => Atom (Lit c)) cs).

(** The first character of [s], if any, does not belong to [c]. *)
Definition stops (c : cset) (s : str) : Prop :=
  match s with
  | [] => True
  | x :: _ => cset_mem c x = false
  end.

(** The double quote. *)
Definition DQ : char := 34%N.

(** What one turn of the loop of [_parse_text] appends for the match
    [mt]. *)
Definition frases_of_match (ignor_col : bool) (mt : Match)
  : list SrtFrase.t :=
  match SrtLine.py_or (group mt 4) (group mt 2) with
  | Some s =>
      if non_empty (strip s)
      then [SrtFrase.__init__ (strip s) (group mt 1) (group mt 3) ignor_col]
      else []
  | None => []
  end.

(** A text that is not empty and has no white space at either end. *)
Definition trimmed_non_empty (s : str) : Prop := s <> [] /\ strip s = s.

(** A block without the [text] attribute. *)
Definition del_text (b : SrtBlock.t) : SrtBlock.t :=
  SrtBlock.Build (SrtBlock.idx b) (SrtBlock._time b) (SrtBlock.lines b) None.

(** What a rendered block has below its index line and its time line:
    every Line followed by a newline, and a blank line. *)
Definition block_body (b : SrtBlock.t) : str :=
  concat (map (fun l => SrtLine.__str__ l ++ [NL])
              (filter SrtLine.__bool__ (SrtBlock.lines b)))
  ++ [NL].

(** The Line that [SrtLine(text, ignore_colours)] builds. *)
Definition line_of (ic : bool) (text : str) : SrtLine.t :=
  SrtLine.Build ic (flat_map (frases_of_match ic) (finditer line_regex text)).

(** A Span as the tokenizer leaves it: a text that is not empty and is
    trimmed, and the flag of the parse. *)
Definition parsed_frase (ic : bool) (f : SrtFrase.t) : Prop :=
  trimmed_non_empty (SrtFrase.text f) /\ SrtFrase._ignore_col f = ic.

(** A Line as [SrtBlock._parse] keeps it: it holds a Span, and its Spans
    are as the tokenizer leaves them. *)
Definition parsed_line (ic : bool) (l : SrtLine.t) : Prop :=
  SrtLine.__bool__ l = true /\ SrtLine._ignore_col l = ic /\
  Forall (parsed_frase ic) (SrtLine._frases l).

(** A Block as [SrtDoc] builds it. *)
Definition parsed_block (ic : bool) (b : SrtBlock.t) : Prop :=
  SrtBlock.text b = None /\ Forall (parsed_line ic) (SrtBlock.lines b).

(** A Span without markup, and a Span inside font markup. *)
Definition plain_frase (f : SrtFrase.t) : Prop :=
  SrtFrase.open_tags f = [] /\ SrtFrase.closing_tags f = [] /\
  no_markup (SrtFrase.text f).

Definition tagged_frase (f : SrtFrase.t) : Prop :=
  open_font_tag (SrtFrase.open_tags f) /\
  exists toks, toks <> [] /\ Forall close_font_token toks /\
               SrtFrase.closing_tags f = concat toks ++ [gt_].

(** A Span rendered with its markup. *)
Definition with_tags (f : SrtFrase.t) : str :=
  SrtFrase.open_tags f ++ SrtFrase.text f ++ SrtFrase.closing_tags f.

Definition EQ : char := ch "=".

(** [part] is [key=value]. *)
Definition binds (key value part : str) : Prop := part = key ++ EQ :: value.

(** No part gives [key] a value. *)
Definition unbound (key : str) (parts : list str) : Prop :=
  forall value part, In part parts -> ~ binds key value part.

(** The number of times [c] occurs in [s]. *)
Definition count (c : char) (s : str) : nat := count_occ N.eq_dec s c.

(* ===================================================================== *)
(** ** Strings *)
(* ===================================================================== *)

Section Strings.

Lemma lstrip_clean (s : str) : clean_head (lstrip s).
Proof.
  induction s as [|c s IH]; simpl; [exact I|].
  destruct (isspace c) eqn:E; [exact IH | exact E].
Qed.

Lemma lstrip_fixed (s : str) : clean_head s -> lstrip s = s.
Proof.
  destruct s as [|c s]; simpl; [reflexivity|].
  intros ->. reflexivity.
Qed.

Lemma lstrip_app_keep (a b : str) (c : char) :
  isspace c = false -> lstrip (a ++ c :: b) = lstrip a ++ c :: b.
Proof.
  intros Hc. induction a as [|x a IH]; simpl.
  - now rewrite Hc.
  - destruct (isspace x); [exact IH | reflexivity].
Qed.

Lemma rstrip_clean (s : str) : clean_head s -> clean_head (rstrip s).
Proof.
  destruct s as [|c s]; [intros _; exact I|].
  simpl. intros Hc. unfold rstrip. simpl rev.
  rewrite (lstrip_app_keep (rev s) [] c Hc), rev_app_distr. simpl. exact Hc.
Qed.

Lemma rstrip_idem (s : str) : rstrip (rstrip s) = rstrip s.
Proof.
  unfold rstrip. rewrite rev_involutive.
  now rewrite (lstrip_fixed _ (lstrip_clean (rev s))).
Qed.

Lemma strip_idem (s : str) : strip (strip s) = strip s.
Proof.
  unfold strip.
  rewrite (lstrip_fixed _ (rstrip_clean _ (lstrip_clean s))).
  apply rstrip_idem.
Qed.

Lemma join_empty_sep (items : list str) : join [] items = concat items.
Proof.
  induction items as [|x [|y rest] IH]; simpl in *.
  - reflexivity.
  - now rewrite app_nil_r.
  - now rewrite IH.
Qed.

Lemma split_go_not_nil sep skip s cur : split_go sep skip s cur <> [].
Proof.
  revert skip cur. induction s as [|c s IH]; intros skip cur; simpl.
  - discriminate.
  - destruct skip; [destruct (starts_with sep (c :: s))|]; try apply IH.
    discriminate.
Qed.

Lemma split_not_nil sep s : split sep s <> [].
Proof. apply split_go_not_nil. Qed.

End Strings.

(* ===================================================================== *)
(** ** The matcher only succeeds along a way of matching *)
(* ===================================================================== *)

Section Matcher.

Lemma orelse_some a b res :
  orelse a b = Some res -> a = Some res \/ (a = None /\ b tt = Some res).
Proof. destruct a; simpl; intros H; [left | right]; auto. Qed.

Lemma greedy_sound r body (Hb : sound_body r body) :
  forall fuel k st res, greedy body k fuel st = Some res ->
    exists st', matches (Star r) st st' /\ k st' = Some res.
Proof.
  induction fuel as [|fuel IH]; intros k st res H; simpl in H.
  - exists st. split; [constructor | exact H].
  - apply orelse_some in H. destruct H as [H | [_ H]].
    + apply Hb in H. destruct H as (st1 & Hm & H).
      destruct (progressed st st1).
      * apply IH in H. destruct H as (st2 & Hm2 & H).
        exists st2. split; [eapply M_star_more; eauto | exact H].
      * exists st1. split; [|exact H].
        eapply M_star_more; [exact Hm | constructor].
    + exists st. split; [constructor | exact H].
Qed.

Lemma lazy_sound r body (Hb : sound_body r body) :
  forall fuel k st res, lazy body k fuel st = Some res ->
    exists st', matches (LazyStar r) st st' /\ k st' = Some res.
Proof.
  induction fuel as [|fuel IH]; intros k st res H; simpl in H.
  - exists st. split; [constructor | exact H].
  - apply orelse_some in H. destruct H as [H | [_ H]].
    + exists st. split; [constructor | exact H].
    + apply Hb in H. destruct H as (st1 & Hm & H).
      destruct (progressed st st1); [|discriminate].
      apply IH in H. destruct H as (st2 & Hm2 & H).
      exists st2. split; [eapply M_lazy_more; eauto | exact H].
Qed.

Lemma run_sound r : sound_body r (run r).
Proof.
  induction r; intros k st res H; cbn [run] in H.
  - destruct (advance st) as [[x st']|] eqn:Ea; [|discriminate].
    destruct (cset_mem c x) eqn:Ec; [|discriminate].
    exists st'. split; [econstructor; eauto | exact H].
  - apply IHr1 in H. destruct H as (st1 & Hm1 & H).
    apply IHr2 in H. destruct H as (st2 & Hm2 & H).
    exists st2. split; [econstructor; eauto | exact H].
  - apply orelse_some in H. destruct H as [H | [_ H]].
    + apply IHr1 in H. destruct H as (st1 & Hm & H).
      exists st1. split; [now apply M_or_l | exact H].
    + apply IHr2 in H. destruct H as (st1 & Hm & H).
      exists st1. split; [now apply M_or_r | exact H].
  - now apply (greedy_sound _ _ IHr) in H.
  - now apply (lazy_sound _ _ IHr) in H.
  - apply IHr in H. destruct H as (st1 & Hm & H).
    apply (greedy_sound _ _ IHr) in H. destruct H as (st2 & Hm2 & H).
    exists st2. split; [econstructor; eauto | exact H].
  - apply orelse_some in H. destruct H as [H | [_ H]].
    + apply IHr in H. destruct H as (st1 & Hm & H).
      exists st1. split; [now apply M_opt_take | exact H].
    + exists st. split; [constructor | exact H].
  - apply IHr in H. destruct H as (st1 & Hm & H).
    exists (close_group n st st1). split; [now constructor | exact H].
  - destruct (lookup n (marks st)) eqn:El.
    + apply IHr in H. destruct H as (st1 & Hm & H).
      exists st1. split; [eapply M_cond_yes; eauto | exact H].
    + exists st. split; [now apply M_cond_no | exact H].
  - destruct (before st) eqn:Eb; [|discriminate].
    exists st. split; [now constructor | exact H].
  - destruct (before st) as [|x bef] eqn:Eb; [discriminate|].
    destruct (cset_mem c x) eqn:Ec; [|discriminate].
    exists st. split; [econstructor; eauto | exact H].
Qed.

Lemma match_at_sound r bef aft st :
  match_at r bef aft = Some st -> matches r (MState bef aft []) st.
Proof.
  unfold match_at. intros H. apply run_sound in H.
  destruct H as (st' & Hm & H). now inversion H; subst.
Qed.

(** Every match that [finditer] reports was found at some position. *)
Lemma finditer_from_found r fuel :
  forall bef aft mt, In mt (finditer_from r fuel bef aft) ->
    exists bef' aft' st,
      match_at r bef' aft' = Some st /\
      mt = MkMatch (marks st) (before st) (after st).
Proof.
  induction fuel as [|fuel IH]; intros bef aft mt Hin; simpl in Hin.
  - contradiction.
  - destruct (match_at r bef aft) as [st|] eqn:Em.
    + destruct Hin as [<- | Hin]; [now exists bef, aft, st|].
      destruct (length (after st) <? length aft).
      * now apply IH in Hin.
      * destruct aft; [contradiction | now apply IH in Hin].
    + destruct aft; [contradiction | now apply IH in Hin].
Qed.

End Matcher.

(* ===================================================================== *)
(** ** The shape of the matches of [line_regex] *)
(* ===================================================================== *)

Section Shape.

Lemma advance_moves st x st' :
  advance st = Some (x, st') ->
  after st = x :: after st' /\ before st' = x :: before st /\
  marks st' = marks st.
Proof.
  unfold advance. destruct (after st) as [|c rest] eqn:E; [discriminate|].
  intros H. inversion H; subst. simpl. auto.
Qed.

Lemma moves_refl st : moves st st.
Proof. exists []. split; reflexivity. Qed.

Lemma moves_trans st st1 st2 : moves st st1 -> moves st1 st2 -> moves st st2.
Proof.
  intros (u & Au & Bu) (v & Av & Bv). exists (u ++ v).
  rewrite Au, Av, Bv, Bu, rev_app_distr, !app_assoc. now split.
Qed.

Lemma matches_moves r st st' : matches r st st' -> moves st st'.
Proof.
  induction 1; eauto using moves_refl, moves_trans.
  apply advance_moves in H. destruct H as (Ha & Hb & _).
  exists [x]. now rewrite Ha, Hb.
Qed.

Lemma consumed_app st st' w : after st = w ++ after st' -> consumed st st' = w.
Proof.
  unfold consumed. intros ->. rewrite length_app.
  replace (length w + length (after st') - length (after st'))
    with (length w + 0) by lia.
  rewrite firstn_app_2. simpl. apply app_nil_r.
Qed.

(** A plain pattern passes over one of its words and leaves the groups
    alone. *)
Lemma matches_plain r st st' :
  plain r = true -> matches r st st' ->
  exists w, lang r w /\ after st = w ++ after st' /\ marks st' = marks st.
Proof.
  intros Hp Hm. induction Hm; simpl in Hp; try discriminate;
    try (apply andb_prop in Hp; destruct Hp as [Hp1 Hp2]).
  - apply advance_moves in H. destruct H as (Ha & _ & Hk).
    exists [x]. simpl. eauto.
  - destruct (IHHm1 Hp1) as (u & Lu & Au & Ku).
    destruct (IHHm2 Hp2) as (v & Lv & Av & Kv).
    exists (u ++ v). simpl. repeat split.
    + eauto.
    + now rewrite Au, Av, app_assoc.
    + congruence.
  - destruct (IHHm Hp1) as (w & L & A & K). exists w. simpl. auto.
  - destruct (IHHm Hp2) as (w & L & A & K). exists w. simpl. auto.
  - exists []. simpl. repeat split. exists []. auto.
  - destruct (IHHm1 Hp) as (u & Lu & Au & Ku).
    destruct (IHHm2 Hp) as (v & (ws & Ev & Fv) & Av & Kv).
    exists (u ++ v). repeat split.
    + exists (u :: ws). simpl. split; [now rewrite Ev | now constructor].
    + now rewrite Au, Av, app_assoc.
    + congruence.
  - exists []. simpl. repeat split. exists []. auto.
  - destruct (IHHm1 Hp) as (u & Lu & Au & Ku).
    destruct (IHHm2 Hp) as (v & (ws & Ev & Fv) & Av & Kv).
    exists (u ++ v). repeat split.
    + exists (u :: ws). simpl. split; [now rewrite Ev | now constructor].
    + now rewrite Au, Av, app_assoc.
    + congruence.
  - destruct (IHHm1 Hp) as (u & Lu & Au & Ku).
    destruct (IHHm2 Hp) as (v & (ws & Ev & Fv) & Av & Kv).
    exists (u ++ v). repeat split.
    + exists u, ws. subst v. auto.
    + now rewrite Au, Av, app_assoc.
    + congruence.
  - exists []. simpl. auto.
  - destruct (IHHm Hp) as (w & L & A & K). exists w. simpl. auto.
Qed.

Lemma cset_lit a x : cset_mem (Lit a) x = true -> x = a.
Proof. simpl. intros H. apply N.eqb_eq in H. now subst. Qed.

Lemma lang_star_atom c w :
  lang (Star (Atom c)) w -> Forall (fun x => cset_mem c x = true) w.
Proof.
  intros (ws & -> & F). induction F as [|u ws (x & -> & Hx) _ IH]; simpl.
  - constructor.
  - now constructor.
Qed.

Lemma lang_open_font w : lang re_open_font w -> open_font_tag w.
Proof.
  intros (a & r1 & -> & (x & -> & Hx) & H).
  destruct H as (ws & r2 & -> & Hws & H).
  destruct H as (fnt & r3 & -> & Hf & H).
  destruct H as (attrs & r4 & -> & Hat & (y & -> & Hy)).
  apply cset_lit in Hx, Hy. subst x y.
  apply lang_star_atom in Hws, Hat.
  destruct Hf as (f1 & f2 & -> & (c1 & -> & H1) & Hf).
  destruct Hf as (f3 & f4 & -> & (c2 & -> & H2) & Hf).
  destruct Hf as (f5 & f6 & -> & (c3 & -> & H3) & (c4 & -> & H4)).
  apply cset_lit in H1, H2, H3, H4. subst.
  exists ws, attrs. repeat split.
  - exact Hws.
  - intros Hin. rewrite Forall_forall in Hat. apply Hat in Hin.
    vm_compute in Hin. discriminate.
Qed.

Lemma lang_close_font w : lang re_close_font w -> close_font_token w.
Proof.
  intros (a & r1 & -> & (x & -> & Hx) & H).
  destruct H as (ws1 & r2 & -> & Hws1 & H).
  destruct H as (fnt & ws2 & -> & Hf & Hws2).
  apply cset_lit in Hx. subst x.
  apply lang_star_atom in Hws1, Hws2.
  destruct Hf as (f1 & f2 & -> & (c1 & -> & H1) & Hf).
  destruct Hf as (f3 & f4 & -> & (c2 & -> & H2) & Hf).
  destruct Hf as (f5 & f6 & -> & (c3 & -> & H3) & Hf).
  destruct Hf as (f7 & f8 & -> & (c4 & -> & H4) & (c5 & -> & H5)).
  apply cset_lit in H1, H2, H3, H4, H5. subst.
  exists ws1, ws2. repeat split; assumption.
Qed.

Lemma lang_plain w :
  lang re_plain w -> w <> [] /\ no_markup w.
Proof.
  intros (u & ws & -> & (x & -> & Hx) & F).
  split; [discriminate|].
  assert (Hall : Forall (fun c => cset_mem (NoneOf [lt_; gt_]) c = true)
                   ([x] ++ concat ws)).
  { apply Forall_app. split; [now constructor|].
    apply lang_star_atom. exists ws. auto. }
  rewrite Forall_forall in Hall.
  split; intros Hin; apply Hall in Hin; vm_compute in Hin; discriminate.
Qed.

(** Repeating [(?(1)<\s*/font\s* )] once group 1 has taken part. *)
Lemma star_cond_tokens v r0 st st' :
  matches r0 st st' -> r0 = Star (Cond 1 re_close_font) ->
  lookup 1 (marks st) = Some v ->
  exists toks, Forall (lang re_close_font) toks /\
               after st = concat toks ++ after st' /\ marks st' = marks st.
Proof.
  induction 1; intros E Hl; inversion E; subst.
  - exists []. auto.
  - inversion H; subst; [|congruence].
    match goal with
    | Hm : matches re_close_font _ _ |- _ =>
        apply matches_plain in Hm; [|reflexivity];
        destruct Hm as (w & L & A & K)
    end.
    destruct IHmatches2 as (toks & F & A2 & K2); [reflexivity | congruence |].
    exists (w :: toks). repeat split.
    + now constructor.
    + simpl. now rewrite A, A2, app_assoc.
    + congruence.
Qed.

Lemma inv_cat a b st st2 :
  matches (Cat a b) st st2 ->
  exists st1, matches a st st1 /\ matches b st1 st2.
Proof. inversion 1; subst; eauto. Qed.

Lemma inv_or a b st st' :
  matches (Or a b) st st' -> matches a st st' \/ matches b st st'.
Proof. inversion 1; subst; auto. Qed.

Lemma inv_grp n r st st' :
  matches (Grp n r) st st' ->
  exists st1, matches r st st1 /\ st' = close_group n st st1.
Proof. inversion 1; subst; eauto. Qed.

Lemma inv_plus r st st2 :
  matches (Plus r) st st2 ->
  exists st1, matches r st st1 /\ matches (Star r) st1 st2.
Proof. inversion 1; subst; eauto. Qed.

Lemma plus_cond_tokens v st st' :
  matches (Plus (Cond 1 re_close_font)) st st' ->
  lookup 1 (marks st) = Some v ->
  exists toks, toks <> [] /\ Forall close_font_token toks /\
               after st = concat toks ++ after st' /\ marks st' = marks st.
Proof.
  intros H Hl. apply inv_plus in H. destruct H as (st1 & H1 & H2).
  inversion H1; subst; [|congruence].
  match goal with
  | Hm : matches re_close_font _ _ |- _ =>
      apply matches_plain in Hm; [|reflexivity];
      destruct Hm as (w & L & A & K)
  end.
  apply (star_cond_tokens v) in H2; [|reflexivity|congruence].
  destruct H2 as (toks & F & A2 & K2).
  exists (w :: toks). repeat split.
  - discriminate.
  - constructor; [now apply lang_close_font|].
    eapply Forall_impl; [|exact F]. apply lang_close_font.
  - simpl. now rewrite A, A2, app_assoc.
  - congruence.
Qed.

(** A match of [line_regex] is a tagged run, with groups 1 to 3, or a
    plain run, with group 4. *)
Lemma line_regex_shape st res :
  matches line_regex st res ->
  (exists g1 g2 g3 toks,
      marks res = (3, g3) :: (2, g2) :: (1, g1) :: marks st /\
      open_font_tag g1 /\
      g3 = concat toks ++ [gt_] /\ toks <> [] /\
      Forall close_font_token toks)
  \/ (exists g4,
         marks res = (4, g4) :: marks st /\ g4 <> [] /\ no_markup g4).
Proof.
  unfold line_regex, re_tagged, re_untagged. cbn [cat]. intros H.
  apply inv_or in H. destruct H as [H | H]; [left | right].
  - apply inv_cat in H. destruct H as (s1 & H1 & H).
    apply inv_grp in H1. destruct H1 as (s1' & H1 & ->).
    apply matches_plain in H1; [|reflexivity].
    destruct H1 as (g1 & L1 & A1 & K1).
    apply inv_cat in H. destruct H as (s2 & H2 & H).
    apply matches_plain in H2; [|reflexivity].
    destruct H2 as (w2 & _ & _ & K2).
    apply inv_cat in H. destruct H as (s3 & H3 & H).
    apply inv_grp in H3. destruct H3 as (s3' & H3 & ->).
    apply matches_plain in H3; [|reflexivity].
    destruct H3 as (g2 & _ & A3 & K3).
    apply inv_cat in H. destruct H as (s4 & H4 & H).
    apply matches_plain in H4; [|reflexivity].
    destruct H4 as (w4 & _ & _ & K4).
    apply inv_grp in H. destruct H as (s5 & H5 & ->).
    apply inv_cat in H5. destruct H5 as (s5a & H5 & H6).
    assert (Hm : marks s4
                 = (2, g2) :: (1, g1) :: marks st).
    { rewrite K4. simpl. rewrite K3, K2. simpl.
      now rewrite K1, (consumed_app _ _ _ A1), (consumed_app _ _ _ A3). }
    apply (plus_cond_tokens g1) in H5; [|now rewrite Hm].
    destruct H5 as (toks & Hne & F & A5 & K5).
    apply matches_plain in H6; [|reflexivity].
    destruct H6 as (w6 & (x & -> & Hx) & A6 & K6).
    apply cset_lit in Hx. subst x.
    exists g1, g2, (concat toks ++ [gt_]), toks. repeat split; auto.
    + simpl. rewrite K6, K5, Hm. f_equal. f_equal.
      apply consumed_app. now rewrite A5, A6, <- app_assoc.
    + now apply lang_open_font.
  - apply inv_cat in H. destruct H as (s1 & H1 & H).
    assert (K1 : marks s1 = marks st /\ after s1 = after st).
    { apply inv_or in H1. destruct H1 as [H1 | H1]; inversion H1; auto. }
    apply inv_grp in H. destruct H as (s2 & H2 & ->).
    apply matches_plain in H2; [|reflexivity].
    destruct H2 as (g4 & L & A & K).
    exists g4. simpl. rewrite K, (consumed_app _ _ _ A).
    destruct K1 as [-> _]. split; [reflexivity|]. now apply lang_plain.
Qed.

(** A match of [line_regex] is never empty. *)
Lemma line_regex_progress st res :
  matches line_regex st res -> length (after res) < length (after st).
Proof.
  unfold line_regex, re_tagged, re_untagged. cbn [cat]. intros H.
  apply inv_or in H. destruct H as [H | H].
  - apply inv_cat in H. destruct H as (s1 & H1 & H).
    apply inv_grp in H1. destruct H1 as (s1' & H1 & ->).
    apply matches_plain in H1; [|reflexivity].
    destruct H1 as (g1 & L1 & A1 & _).
    apply lang_open_font in L1. destruct L1 as (ws & attrs & -> & _).
    apply matches_moves in H. destruct H as (w & Aw & _).
    cbn [close_group after] in Aw. rewrite A1, Aw, !length_app. simpl. lia.
  - apply inv_cat in H. destruct H as (s1 & H1 & H).
    assert (K1 : after s1 = after st).
    { apply inv_or in H1. destruct H1 as [H1 | H1]; inversion H1; auto. }
    apply inv_grp in H. destruct H as (s2 & H2 & ->).
    apply matches_plain in H2; [|reflexivity].
    destruct H2 as (g4 & L & A & _). apply lang_plain in L.
    destruct L as [Hne _]. cbn [close_group after].
    rewrite <- K1, A, length_app. destruct g4; [contradiction|]. simpl. lia.
Qed.

Lemma match_at_progress bef aft st :
  match_at line_regex bef aft = Some st -> length (after st) < length aft.
Proof.
  intros H. apply match_at_sound, line_regex_progress in H. exact H.
Qed.

(** The groups of every match that [finditer] reports for [line_regex]. *)
Lemma finditer_line_regex_groups text mt :
  In mt (finditer line_regex text) ->
  (exists g1 g2 g3 toks,
      groups mt = [(3, g3); (2, g2); (1, g1)] /\
      open_font_tag g1 /\
      g3 = concat toks ++ [gt_] /\ toks <> [] /\
      Forall close_font_token toks)
  \/ (exists g4, groups mt = [(4, g4)] /\ g4 <> [] /\ no_markup g4).
Proof.
  intros Hin. apply finditer_from_found in Hin.
  destruct Hin as (bef & aft & st & Hm & ->).
  apply match_at_sound, line_regex_shape in Hm. exact Hm.
Qed.

End Shape.

(* ===================================================================== *)
(** ** Lines *)
(* ===================================================================== *)

Section Lines.

Lemma run_atom c k st :
  run (Atom c) k st
  = match advance st with
    | Some (x, st') => if cset_mem c x then k st' else None
    | None => None
    end.
Proof. reflexivity. Qed.

Lemma greedy_S body k fuel st :
  greedy body k (S fuel) st
  = orelse (body (fun st' => if progressed st st'
                             then greedy body k fuel st'
                             else k st') st)
           (fun _ => k st).
Proof. reflexivity. Qed.

(** A greedy class takes all of a subject made of its characters. *)
Lemma greedy_atom_all c k w :
  forall bef mk fuel res,
    Forall (fun x => cset_mem c x = true) w ->
    length w < fuel ->
    k (MState (rev w ++ bef) [] mk) = Some res ->
    greedy (run (Atom c)) k fuel (MState bef w mk) = Some res.
Proof.
  induction w as [|x w IH]; intros bef mk fuel res F Hf Hk;
    (destruct fuel as [|fuel]; [inversion Hf|]);
    rewrite greedy_S, run_atom; unfold advance; cbn [after before marks].
  - exact Hk.
  - inversion F; subst.
    match goal with H : cset_mem c x = true |- _ => rewrite H end.
    unfold progressed. cbn [after].
    replace (length w <? length (x :: w)) with true
      by (symmetry; apply Nat.ltb_lt; simpl; lia).
    rewrite (IH (x :: bef) mk fuel res); auto.
    + simpl in Hf. lia.
    + simpl in Hk. now rewrite <- app_assoc in Hk.
Qed.

Lemma no_markup_class line :
  no_markup line ->
  Forall (fun x => cset_mem (NoneOf [lt_; gt_]) x = true) line.
Proof.
  intros [Hl Hg]. apply Forall_forall. intros x Hx. simpl.
  destruct (N.eqb_spec x lt_) as [->|_]; [contradiction|].
  destruct (N.eqb_spec x gt_) as [->|_]; [contradiction|].
  reflexivity.
Qed.

Lemma run_cat r1 r2 k st : run (Cat r1 r2) k st = run r1 (run r2 k) st.
Proof. reflexivity. Qed.

Lemma run_grp n r k st :
  run (Grp n r) k st = run r (fun st' => k (close_group n st st')) st.
Proof. reflexivity. Qed.

Lemma run_plus r k st :
  run (Plus r) k st
  = run r (fun st' => greedy (run r) k (S (length (after st'))) st') st.
Proof. reflexivity. Qed.

Lemma run_or r1 r2 k st :
  run (Or r1 r2) k st = orelse (run r1 k st) (fun _ => run r2 k st).
Proof. reflexivity. Qed.

Lemma run_bol k st :
  run Bol k st = match before st with [] => k st | _ :: _ => None end.
Proof. reflexivity. Qed.

Lemma run_after c k st :
  run (After c) k st
  = match before st with
    | x :: _ => if cset_mem c x then k st else None
    | [] => None
    end.
Proof. reflexivity. Qed.

(** A tagged run starts with [<]. *)
Lemma run_tagged_needs_lt k st :
  match after st with
  | [] => True
  | c :: _ => N.eqb lt_ c = false
  end ->
  run re_tagged k st = None.
Proof.
  intros H. unfold re_tagged, re_open_font. cbn [cat].
  rewrite run_cat, run_grp, run_cat, run_atom. unfold advance.
  destruct (after st) as [|c rest]; [reflexivity|].
  cbn [cset_mem]. now rewrite H.
Qed.

Lemma match_at_end bef : match_at line_regex bef [] = None.
Proof.
  unfold match_at, line_regex. rewrite run_or.
  rewrite run_tagged_needs_lt by exact I. cbn [orelse].
  unfold re_untagged, re_plain. cbn [cat].
  rewrite run_cat, run_or, run_bol, run_after.
  rewrite run_grp, run_plus, run_atom. unfold advance. cbn [after before].
  destruct bef as [|x bef]; [reflexivity|]. cbn [orelse].
  destruct (cset_mem (Lit gt_) x); reflexivity.
Qed.

Lemma match_at_plain c l :
  no_markup (c :: l) ->
  match_at line_regex [] (c :: l)
  = Some (MState (rev (c :: l)) [] [(4, c :: l)]).
Proof.
  intros Hn. pose proof (no_markup_class _ Hn) as F.
  destruct Hn as [Hl Hg].
  assert (Hc : N.eqb lt_ c = false).
  { apply N.eqb_neq. intros <-. apply Hl. now left. }
  unfold match_at, line_regex. rewrite run_or.
  rewrite run_tagged_needs_lt by exact Hc. cbn [orelse].
  unfold re_untagged, re_plain. cbn [cat].
  rewrite run_cat, run_or, run_bol. cbn [before].
  rewrite run_grp, run_plus, run_atom. unfold advance.
  cbn [after before marks].
  inversion F; subst.
  match goal with H : cset_mem _ c = true |- _ => rewrite H end.
  rewrite (greedy_atom_all _ _ l (c :: []) []
             (S (length l)) (MState (rev (c :: l)) [] [(4, c :: l)])); auto.
  unfold close_group, consumed. cbn [after before marks length].
  rewrite Nat.sub_0_r.
  change (S (length l)) with (length (c :: l)). rewrite firstn_all.
  reflexivity.
Qed.

Lemma finditer_plain c l :
  no_markup (c :: l) ->
  finditer line_regex (c :: l) = [MkMatch [(4, c :: l)] (rev (c :: l)) []].
Proof.
  intros Hn. unfold finditer. cbn [finditer_from].
  rewrite (match_at_plain _ _ Hn). cbn [after before marks length].
  cbn [Nat.ltb Nat.leb]. cbn [finditer_from].
  now rewrite match_at_end.
Qed.

Lemma finditer_nil : finditer line_regex [] = [].
Proof. reflexivity. Qed.

(** The text that [_parse_text] takes from a match. *)
Lemma frase_str_plain t ic :
  t <> [] ->
  SrtFrase.__str__ (SrtFrase.Build ic [] t []) = t.
Proof.
  intros Ht. unfold SrtFrase.__str__. simpl.
  destruct t as [|x t]; [contradiction|]. simpl.
  destruct ic; [reflexivity|]. now rewrite app_nil_r.
Qed.

(** Whatever the line, every match gives [_parse_text] a text. *)
Lemma match_has_text text mt :
  In mt (finditer line_regex text) ->
  exists s, SrtLine.py_or (group mt 4) (group mt 2) = Some s.
Proof.
  intros Hin. apply finditer_line_regex_groups in Hin.
  destruct Hin as [(g1 & g2 & g3 & toks & Hg & _) | (g4 & Hg & Hne & _)];
    unfold group; rewrite Hg; simpl.
  - eauto.
  - destruct g4; [contradiction | eauto].
Qed.

Lemma parse_text_spec ic ms :
  (forall mt, In mt ms ->
     exists s, SrtLine.py_or (group mt 4) (group mt 2) = Some s) ->
  forall frases,
    SrtLine._parse_text frases ms ic
    = Ok (frases ++ flat_map (frases_of_match ic) ms).
Proof.
  induction ms as [|mt ms IH]; intros Hall frases; simpl.
  - now rewrite app_nil_r.
  - destruct (Hall mt (or_introl eq_refl)) as (s & Hs).
    unfold frases_of_match. rewrite Hs. simpl.
    destruct (non_empty (strip s)).
    + rewrite IH by (intros; apply Hall; now right).
      now rewrite <- app_assoc.
    + apply IH. intros; apply Hall; now right.
Qed.

(** [SrtLine(text)] never raises, and holds what the matches give. *)
Lemma line_init_spec text ic :
  SrtLine.__init__ text ic
  = Ok (SrtLine.Build ic
          (flat_map (frases_of_match ic) (finditer line_regex text))).
Proof.
  unfold SrtLine.__init__.
  rewrite parse_text_spec by apply match_has_text. reflexivity.
Qed.

Lemma frases_of_match_trimmed ic mt f :
  In f (frases_of_match ic mt) -> trimmed_non_empty (SrtFrase.text f).
Proof.
  unfold frases_of_match.
  destruct (SrtLine.py_or (group mt 4) (group mt 2)) as [s|];
    [|contradiction].
  destruct (non_empty (strip s)) eqn:E; [|contradiction].
  intros [<- | []]. unfold trimmed_non_empty. simpl.
  rewrite !strip_idem. split; [|reflexivity].
  intros H. rewrite H in E. discriminate.
Qed.

End Lines.

(* ===================================================================== *)
(** ** Claims about spans and lines *)
(* ===================================================================== *)

(** C1, as the code has it: for every line without markup, rendering the
    Line parsed from it returns the line with leading and trailing white
    space removed; interior white space is kept as it is. *)
Theorem plain_line_renders_stripped (line : str) (ic : bool) :
  no_markup line ->
  exists l, SrtLine.__init__ line ic = Ok l /\ SrtLine.__str__ l = strip line.
Proof.
  intros Hn. rewrite line_init_spec. eexists. split; [reflexivity|].
  destruct line as [|c l].
  - reflexivity.
  - rewrite (finditer_plain _ _ Hn). unfold SrtLine.__str__.
    cbn [flat_map SrtLine._frases]. rewrite app_nil_r.
    unfold frases_of_match, group. cbn [groups lookup Nat.eqb SrtLine.py_or].
    destruct (strip (c :: l)) as [|x t] eqn:E; cbn [non_empty].
    + reflexivity.
    + cbn [map join]. unfold SrtFrase.__init__. cbn [SrtFrase.or_empty].
      rewrite <- E, strip_idem, frase_str_plain; [reflexivity|].
      rewrite E. discriminate.
Qed.

Lemma plain_line_renders_stripped_witness :
  exists l, SrtLine.__init__ (py "  a  b ") false = Ok l
            /\ SrtLine.__str__ l = strip (py "  a  b ").
Proof.
  apply (plain_line_renders_stripped (py "  a  b ") false).
  split; intros H; vm_compute in H;
    repeat (destruct H as [H | H]; [discriminate H|]); exact H.
Defined.

(** C1, as the specification states it, fails: the line [a  b], with two
    spaces inside, has no markup and renders with both spaces. *)
Lemma plain_line_keeps_interior_runs :
  no_markup (py "a  b") /\
  exists l, SrtLine.__init__ (py "a  b") false = Ok l /\
            SrtLine.__str__ l = py "a  b" /\
            spec_ws_normalized (py "a  b") = py "a b" /\
            SrtLine.__str__ l <> spec_ws_normalized (py "a  b").
Proof.
  split.
  - split; intros H; vm_compute in H;
      repeat (destruct H as [H | H]; [discriminate H|]); exact H.
  - eexists. split; [vm_compute; reflexivity|].
    repeat split; try (vm_compute; reflexivity).
    vm_compute. discriminate.
Qed.

(** C3: parsing the line [<font color="#ff0000">Hello</font>] with the
    markup kept yields exactly one Span, with text [Hello], that opening
    tag and [</font>], and rendering the Line gives the input back. *)
Theorem font_tag_round_trip :
  let input :=
    py "<font color=" ++ [DQ] ++ py "#ff0000" ++ [DQ] ++ py ">Hello</font>" in
  exists f,
    SrtLine.__init__ input false = Ok (SrtLine.Build false [f]) /\
    SrtFrase.text f = py "Hello" /\
    SrtFrase.open_tags f
    = py "<font color=" ++ [DQ] ++ py "#ff0000" ++ [DQ] ++ py ">" /\
    SrtFrase.closing_tags f = py "</font>" /\
    SrtLine.__str__ (SrtLine.Build false [f]) = input.
Proof.
  eexists. split; [vm_compute; reflexivity|].
  repeat split; vm_compute; reflexivity.
Qed.

(** C6: a Span with empty text renders as the empty string; otherwise it
    renders as its text alone when markup is suppressed, and as opening
    markup, text, closing markup when it is not.  The line of C3 parsed
    with markup suppressed renders as [Hello]. *)
Theorem span_render_rule :
  (forall f : SrtFrase.t,
      SrtFrase.__str__ f
      = match SrtFrase.text f with
        | [] => []
        | _ :: _ =>
            if SrtFrase._ignore_col f then SrtFrase.text f
            else SrtFrase.open_tags f ++ SrtFrase.text f
                 ++ SrtFrase.closing_tags f
        end)
  /\ exists l,
      SrtLine.__init__
        (py "<font color=" ++ [DQ] ++ py "#ff0000" ++ [DQ]
         ++ py ">Hello</font>") true = Ok l
      /\ SrtLine.__str__ l = py "Hello".
Proof.
  split.
  - intros [ic o t c]. unfold SrtFrase.__str__, SrtFrase.text. simpl.
    destruct t; [reflexivity|]. destruct ic; reflexivity.
  - eexists. split; vm_compute; reflexivity.
Qed.

(** C7, as the code has it: every Span of a Line, as the constructor of
    the Line builds it, has a text that is not empty and is trimmed, the
    Line holding exactly what the matches with a non-empty trimmed text
    give, in order; the line [<font color="red"></font>] yields a Line
    without Spans.  What the text setter of a Span stores later is not
    covered. *)
Theorem line_spans_non_empty_trimmed :
  (forall text ic,
      exists l,
        SrtLine.__init__ text ic = Ok l /\
        SrtLine._frases l
        = flat_map (frases_of_match ic) (finditer line_regex text) /\
        Forall (fun f => trimmed_non_empty (SrtFrase.text f))
               (SrtLine._frases l))
  /\ forall ic,
      SrtLine.__init__
        (py "<font color=" ++ [DQ] ++ py "red" ++ [DQ] ++ py "></font>") ic
      = Ok (SrtLine.Build ic []).
Proof.
  split.
  - intros text ic. rewrite line_init_spec. eexists.
    split; [reflexivity|]. split; [reflexivity|]. simpl.
    apply Forall_forall. intros f Hin. apply in_flat_map in Hin.
    destruct Hin as (mt & _ & Hin). eapply frases_of_match_trimmed; eauto.
  - intros []; vm_compute; reflexivity.
Qed.

(** C7, as the specification states it, fails: the text setter of a Span
    stores what it is given.  After the second Span of the parsed line
    [Hi <font>x</font>] is assigned the empty text, which adds or removes
    no Block and no Line, the Line still holds that Span, with an empty
    text. *)
Lemma span_text_setter_breaks_line_invariant :
  exists d d',
    SrtDoc.__init__
      (py "1" ++ [NL] ++ py "00:01 --> 00:02" ++ [NL]
       ++ py "Hi <font>x</font>") false = Ok d /\
    d' = set_frase_text 0 0 1 [] d /\
    non_structural d d' /\
    map SrtFrase.text (document_order d) = [py "Hi"; py "x"] /\
    map SrtFrase.text (document_order d') = [py "Hi"; []] /\
    ~ Forall (fun f => trimmed_non_empty (SrtFrase.text f))
             (document_order d').
Proof.
  eexists. eexists. split; [vm_compute; reflexivity|].
  split; [reflexivity|].
  split; [apply ns_frase_text, ns_same|].
  split; [vm_compute; reflexivity|].
  split; [vm_compute; reflexivity|].
  intros H. vm_compute in H.
  inversion H as [|f1 l1 _ H2]. inversion H2 as [|f2 l2 [Hne _] _].
  apply Hne. reflexivity.
Qed.

(* ===================================================================== *)
(** ** Counting font tokens with the patterns themselves *)
(* ===================================================================== *)

Section Counting.

Lemma run_star r k st :
  run (Star r) k st = greedy (run r) k (S (length (after st))) st.
Proof. reflexivity. Qed.

Lemma cset_lit_refl a : cset_mem (Lit a) a = true.
Proof. apply N.eqb_refl. Qed.

(** A greedy class takes a whole run of its characters when the rest of
    the pattern matches behind the run. *)
Lemma greedy_atom_max c k w rest :
  forall bef mk fuel res,
    Forall (fun x => cset_mem c x = true) w ->
    stops c rest ->
    length (w ++ rest) < fuel ->
    k (MState (rev w ++ bef) rest mk) = Some res ->
    greedy (run (Atom c)) k fuel (MState bef (w ++ rest) mk) = Some res.
Proof.
  induction w as [|x w IH]; intros bef mk fuel res F Hs Hf Hk;
    (destruct fuel as [|fuel]; [inversion Hf|]);
    rewrite greedy_S, run_atom; unfold advance; cbn [after before marks app].
  - destruct rest as [|y rest]; [exact Hk|].
    unfold stops in Hs. rewrite Hs. exact Hk.
  - inversion F; subst.
    match goal with H : cset_mem c x = true |- _ => rewrite H end.
    unfold progressed. cbn [after].
    replace (length (w ++ rest) <? length (x :: w ++ rest)) with true
      by (symmetry; apply Nat.ltb_lt; simpl; lia).
    rewrite (IH (x :: bef) mk fuel res); auto.
    + simpl in Hf. lia.
    + simpl in Hk. now rewrite <- app_assoc in Hk.
Qed.

Lemma lits_cons c c' cs :
  lits (c :: c' :: cs) = Cat (Atom (Lit c)) (lits (c' :: cs)).
Proof. reflexivity. Qed.

Lemma run_lits cs :
  cs <> [] ->
  forall k bef rest mk,
    run (lits cs) k (MState bef (cs ++ rest) mk)
    = k (MState (rev cs ++ bef) rest mk).
Proof.
  induction cs as [|c [|c' cs] IH]; intros Hne k bef rest mk.
  - contradiction.
  - unfold lits. cbn [map cat]. rewrite run_atom. unfold advance.
    cbn [after before marks app]. now rewrite cset_lit_refl.
  - rewrite lits_cons, run_cat, run_atom. unfold advance.
    cbn [after before marks app]. rewrite cset_lit_refl.
    change (c' :: cs ++ rest) with ((c' :: cs) ++ rest).
    rewrite (IH ltac:(discriminate) k (c :: bef) rest mk).
    cbn [rev]. now rewrite <- !app_assoc.
Qed.

Lemma run_open_font k bef mk ws attrs rest res :
  all_space ws -> ~ In gt_ attrs ->
  k (MState (rev (lt_ :: ws ++ py "font" ++ attrs ++ [gt_]) ++ bef) rest mk)
  = Some res ->
  run re_open_font k
      (MState bef ((lt_ :: ws ++ py "font" ++ attrs ++ [gt_]) ++ rest) mk)
  = Some res.
Proof.
  intros Hws Hat Hk. unfold re_open_font. cbn [cat].
  change (word "font") with (lits (py "font")).
  rewrite run_cat, run_atom. unfold advance. cbn [after before marks app].
  rewrite cset_lit_refl, <- !app_assoc.
  rewrite run_cat, run_star. cbn [after].
  apply greedy_atom_max; [exact Hws | reflexivity | lia |].
  rewrite run_cat, run_lits by discriminate.
  rewrite run_cat, run_star. cbn [after].
  apply greedy_atom_max.
  - apply Forall_forall. intros x Hx. simpl.
    destruct (N.eqb_spec x gt_) as [->|_]; [contradiction | reflexivity].
  - reflexivity.
  - lia.
  - rewrite run_atom. unfold advance. cbn [after before marks app].
    rewrite cset_lit_refl. rewrite <- Hk. do 2 f_equal.
    cbn [rev]. rewrite !rev_app_distr. cbn [rev app].
    now rewrite <- !app_assoc.
Qed.

Lemma run_close_font k bef mk ws1 ws2 rest res :
  all_space ws1 -> all_space ws2 -> stops Space rest ->
  k (MState (rev (lt_ :: ws1 ++ py "/font" ++ ws2) ++ bef) rest mk)
  = Some res ->
  run re_close_font k
      (MState bef ((lt_ :: ws1 ++ py "/font" ++ ws2) ++ rest) mk)
  = Some res.
Proof.
  intros H1 H2 Hs Hk. unfold re_close_font. cbn [cat].
  change (word "/font") with (lits (py "/font")).
  rewrite run_cat, run_atom. unfold advance. cbn [after before marks app].
  rewrite cset_lit_refl, <- !app_assoc.
  rewrite run_cat, run_star. cbn [after].
  apply greedy_atom_max; [exact H1 | reflexivity | lia |].
  rewrite run_cat, run_lits by discriminate.
  rewrite run_star. cbn [after].
  apply greedy_atom_max; [exact H2 | exact Hs | lia |].
  rewrite <- Hk. do 2 f_equal.
  cbn [rev]. rewrite !rev_app_distr. now rewrite <- !app_assoc.
Qed.

Lemma open_font_needs_lt bef aft :
  stops (Lit lt_) aft -> match_at re_open_font bef aft = None.
Proof.
  intros Hs. unfold match_at, re_open_font. cbn [cat].
  rewrite run_cat, run_atom. unfold advance. cbn [after].
  destruct aft as [|c aft]; [reflexivity|]. unfold stops in Hs.
  now rewrite Hs.
Qed.

Lemma close_font_needs_lt bef aft :
  stops (Lit lt_) aft -> match_at re_close_font bef aft = None.
Proof.
  intros Hs. unfold match_at, re_close_font. cbn [cat].
  rewrite run_cat, run_atom. unfold advance. cbn [after].
  destruct aft as [|c aft]; [reflexivity|]. unfold stops in Hs.
  now rewrite Hs.
Qed.

(** An opening font tag holds one opening font tag. *)
Lemma count_open_font_tag g1 : open_font_tag g1 -> count_open_font g1 = 1.
Proof.
  intros (ws & attrs & -> & Hws & Hat).
  pose proof (run_open_font (fun st => Some st) [] [] ws attrs [] _
                Hws Hat eq_refl) as Hm.
  rewrite (app_nil_r (lt_ :: _)) in Hm. fold (match_at re_open_font [] 
    (lt_ :: ws ++ py "font" ++ attrs ++ [gt_])) in Hm.
  unfold count_open_font, finditer. cbn [finditer_from]. rewrite Hm.
  cbn [after length Nat.ltb Nat.leb before].
  cbn [finditer_from]. rewrite open_font_needs_lt by exact I. reflexivity.
Qed.

Lemma close_tokens_stop toks :
  Forall close_font_token toks -> stops Space (concat toks ++ [gt_]).
Proof.
  intros F. destruct F as [|tok toks (ws1 & ws2 & -> & _) _]; reflexivity.
Qed.

Lemma count_close_tokens toks :
  Forall close_font_token toks ->
  forall bef fuel,
    length (concat toks ++ [gt_]) < fuel ->
    length (finditer_from re_close_font fuel bef (concat toks ++ [gt_]))
    = length toks.
Proof.
  induction 1 as [|tok toks (ws1 & ws2 & -> & H1 & H2) F IH];
    intros bef [|fuel] Hlen; try (simpl in Hlen; lia).
  - cbn [concat app finditer_from].
    rewrite close_font_needs_lt by reflexivity.
    destruct fuel; [reflexivity|]. cbn [finditer_from].
    now rewrite close_font_needs_lt by exact I.
  - cbn [concat finditer_from]. rewrite <- app_assoc. unfold match_at.
    rewrite (run_close_font _ _ _ _ _ _ _ H1 H2
               (close_tokens_stop _ F) eq_refl).
    cbn [after before marks].
    replace (length (concat toks ++ [gt_])
             <? length ((lt_ :: ws1 ++ py "/font" ++ ws2)
                        ++ concat toks ++ [gt_]))
      with true
      by (symmetry; apply Nat.ltb_lt; rewrite (length_app (_ :: _));
          simpl; lia).
    cbn [length]. f_equal. apply IH.
    cbn [concat] in Hlen. rewrite <- app_assoc, (length_app (_ :: _)) in Hlen.
    simpl in Hlen. lia.
Qed.

End Counting.

(** C8, as the code has it: in every tagged-run match group 1 is one
    opening font tag, and group 3 is one or more closing font tokens
    followed by a single [>]; the opening count is always one, the closing
    count is at least one and is not tied to the opening count. *)
Theorem tagged_run_closing_tokens (text : str) (mt : Match) :
  In mt (finditer line_regex text) ->
  tagged_run mt ->
  exists g1 g3 toks,
    group mt 1 = Some g1 /\ open_font_tag g1 /\ count_open_font g1 = 1 /\
    group mt 3 = Some g3 /\ g3 = concat toks ++ [gt_] /\
    Forall close_font_token toks /\
    count_close_font g3 = length toks /\ 1 <= count_close_font g3.
Proof.
  intros Hin Ht. apply finditer_line_regex_groups in Hin.
  destruct Hin as [(g1 & g2 & g3 & toks & Hg & Ho & H3 & Hne & F)
                  | (g4 & Hg & _)].
  - assert (Hc : count_close_font g3 = length toks).
    { subst g3. unfold count_close_font, finditer.
      apply count_close_tokens; [exact F | lia]. }
    exists g1, g3, toks. unfold group. rewrite Hg. simpl.
    repeat split; auto.
    + now apply count_open_font_tag.
    + rewrite Hc. destruct toks; [contradiction | simpl; lia].
  - exfalso. apply Ht. unfold group. now rewrite Hg.
Qed.

Lemma tagged_run_closing_tokens_witness :
  exists g1 g3 toks,
    group (MkMatch [(3, py "</font>"); (2, py "Hi"); (1, py "<font>")]
             (rev (py "<font>Hi</font>")) []) 1 = Some g1 /\
    open_font_tag g1 /\ count_open_font g1 = 1 /\
    group (MkMatch [(3, py "</font>"); (2, py "Hi"); (1, py "<font>")]
             (rev (py "<font>Hi</font>")) []) 3 = Some g3 /\
    g3 = concat toks ++ [gt_] /\
    Forall close_font_token toks /\
    count_close_font g3 = length toks /\ 1 <= count_close_font g3.
Proof.
  apply (tagged_run_closing_tokens (py "<font>Hi</font>")).
  - left. vm_compute. reflexivity.
  - vm_compute. discriminate.
Defined.

(** C8, as the specification states it, fails: in [<font>x</font</font>]
    the one match is a tagged run that opens with one font tag and closes
    with two closing font tokens. *)
Lemma closing_count_differs_from_opening :
  exists mt g1 g3,
    finditer line_regex (py "<font>x</font</font>") = [mt] /\
    tagged_run mt /\
    group mt 1 = Some g1 /\ g1 = py "<font>" /\
    group mt 3 = Some g3 /\ g3 = py "</font" ++ py "</font" ++ py ">" /\
    count_open_font g1 = 1 /\ count_close_font g3 = 2 /\
    count_close_font g3 <> count_open_font g1.
Proof.
  eexists. exists (py "<font>"), (py "</font</font>").
  split; [vm_compute; reflexivity|].
  repeat split; try (vm_compute; reflexivity); vm_compute; discriminate.
Qed.

(* ===================================================================== *)
(** ** Blocks *)
(* ===================================================================== *)

Section Blocks.

(** The loop over the text lines never raises; it appends Lines that
    hold a Span and touches nothing else. *)
Lemma parse_lines_spec no_col ls :
  forall self,
    exists added,
      SrtBlock.parse_lines ls no_col self
      = (Ok tt,
         SrtBlock.Build (SrtBlock.idx self) (SrtBlock._time self)
           (SrtBlock.lines self ++ added) (SrtBlock.text self))
      /\ Forall (fun l => SrtLine.__bool__ l = true) added.
Proof.
  induction ls as [|line ls IH]; intros self; cbn [SrtBlock.parse_lines].
  - exists []. rewrite app_nil_r. destruct self. split; [reflexivity|].
    constructor.
  - unfold sbind at 1, lift. rewrite line_init_spec.
    set (l := SrtLine.Build no_col _).
    destruct (SrtLine.__bool__ l) eqn:E.
    + unfold sbind, modify.
      destruct (IH (SrtBlock.append_line l self)) as (added & -> & F).
      exists (l :: added). simpl. rewrite <- app_assoc.
      split; [reflexivity | now constructor].
    + unfold sbind, sret.
      destruct (IH self) as (added & -> & F). now exists added.
Qed.

Lemma block_init_short chunk ic first :
  split [NL] (strip chunk) = [first] ->
  SrtBlock.__init__ chunk ic = Ok (SrtBlock.Build first [] [] None).
Proof.
  intros E. unfold SrtBlock.__init__, SrtBlock._parse. rewrite E.
  reflexivity.
Qed.

(** [SrtBlock(chunk)] never raises, and the object it builds has no
    [text] attribute. *)
Lemma block_init_spec chunk ic :
  exists i t ls,
    SrtBlock.__init__ chunk ic = Ok (SrtBlock.Build i t ls None)
    /\ Forall (fun l => SrtLine.__bool__ l = true) ls.
Proof.
  unfold SrtBlock.__init__, SrtBlock._parse.
  destruct (split [NL] (strip chunk)) as [|first [|second rest]] eqn:E.
  - now apply split_not_nil in E.
  - exists first, [], []. split; [reflexivity | constructor].
  - unfold try_except_IndexError, sbind at 1 2 3 4, lift, modify, getitem.
    cbn [nth_error skipn].
    destruct (parse_lines_spec ic rest
                (SrtBlock.set_time second
                   (SrtBlock.set_idx first (SrtBlock.Build [] [] [] None))))
      as (added & -> & F).
    exists first, second, added. split; [reflexivity | exact F].
Qed.

End Blocks.

(** C5: a chunk whose stripped content has fewer than two lines builds a
    Block without raising; the one line there is becomes the index, the
    time range stays empty and so does the sequence of Lines. *)
Theorem short_chunk_builds_empty_block (chunk : str) (ic : bool) :
  length (split [NL] (strip chunk)) < 2 ->
  exists first,
    split [NL] (strip chunk) = [first] /\
    SrtBlock.__init__ chunk ic = Ok (SrtBlock.Build first [] [] None) /\
    SrtBlock.__bool__ (SrtBlock.Build first [] [] None) = false.
Proof.
  intros Hlen.
  destruct (split [NL] (strip chunk)) as [|first [|second rest]] eqn:E.
  - now apply split_not_nil in E.
  - exists first. split; [reflexivity|].
    split; [now apply block_init_short | reflexivity].
  - simpl in Hlen. lia.
Qed.

Lemma short_chunk_builds_empty_block_witness :
  exists first,
    split [NL] (strip (py " 7 ")) = [first] /\
    SrtBlock.__init__ (py " 7 ") true
    = Ok (SrtBlock.Build first [] [] None) /\
    SrtBlock.__bool__ (SrtBlock.Build first [] [] None) = false.
Proof.
  apply (short_chunk_builds_empty_block (py " 7 ") true).
  vm_compute. lia.
Defined.

(* ===================================================================== *)
(** ** Documents *)
(* ===================================================================== *)

Section Documents.

Lemma block_iter_cons idx block bs :
  SrtDoc.block_iter idx (block :: bs)
  = if SrtBlock.__bool__ block
    then (SrtBlock.__str__ (SrtBlock.set_idx (str_of_nat idx) block)
            :: fst (SrtDoc.block_iter (idx + 1) bs),
          SrtBlock.set_idx (str_of_nat idx) block
            :: snd (SrtDoc.block_iter (idx + 1) bs))
    else (fst (SrtDoc.block_iter idx bs),
          block :: snd (SrtDoc.block_iter idx bs)).
Proof.
  cbn [SrtDoc.block_iter]. destruct (SrtBlock.__bool__ block).
  - now destruct (SrtDoc.block_iter (idx + 1) bs).
  - now destruct (SrtDoc.block_iter idx bs).
Qed.

Lemma doc_str_fst d :
  fst (SrtDoc.__str__ d)
  = concat (fst (SrtDoc.block_iter 1 (SrtDoc.blocks d))).
Proof.
  unfold SrtDoc.__str__.
  destruct (SrtDoc.block_iter 1 (SrtDoc.blocks d)). simpl.
  apply join_empty_sep.
Qed.

Lemma doc_str_snd d :
  SrtDoc.blocks (snd (SrtDoc.__str__ d))
  = snd (SrtDoc.block_iter 1 (SrtDoc.blocks d)).
Proof.
  unfold SrtDoc.__str__.
  now destruct (SrtDoc.block_iter 1 (SrtDoc.blocks d)).
Qed.

Lemma block_iter_renders bs :
  forall idx,
    fst (SrtDoc.block_iter idx bs)
    = map (fun ib => SrtBlock.__str__
                       (SrtBlock.set_idx (str_of_nat (fst ib)) (snd ib)))
          (combine (seq idx (length (filter SrtBlock.__bool__ bs)))
                   (filter SrtBlock.__bool__ bs)).
Proof.
  induction bs as [|b bs IH]; intros idx; [reflexivity|].
  rewrite block_iter_cons. cbn [filter].
  destruct (SrtBlock.__bool__ b); cbn [fst length seq combine map].
  - now rewrite IH, Nat.add_1_r.
  - apply IH.
Qed.

Lemma block_iter_renumbers bs :
  forall idx,
    map SrtBlock.idx (filter SrtBlock.__bool__ (snd (SrtDoc.block_iter idx bs)))
    = map str_of_nat (seq idx (length (filter SrtBlock.__bool__ bs))).
Proof.
  induction bs as [|b bs IH]; intros idx; [reflexivity|].
  rewrite block_iter_cons. cbn [filter].
  destruct (SrtBlock.__bool__ b) eqn:E; cbn [snd filter].
  - replace (SrtBlock.__bool__ (SrtBlock.set_idx (str_of_nat idx) b))
      with true by (now destruct b).
    cbn [map length seq]. now rewrite IH, Nat.add_1_r.
  - rewrite E. apply IH.
Qed.

(** The document-level text setter changes nothing that render reads. *)
Lemma block_iter_assign_text bs :
  forall vs idx,
    fst (SrtDoc.block_iter idx (SrtDoc.assign_text bs vs))
    = fst (SrtDoc.block_iter idx bs).
Proof.
  induction bs as [|b bs IH]; intros vs idx; [reflexivity|].
  destruct vs as [|v vs]; [reflexivity|].
  cbn [SrtDoc.assign_text]. rewrite !block_iter_cons.
  replace (SrtBlock.__bool__ (SrtBlock.set_text v b))
    with (SrtBlock.__bool__ b) by (now destruct b).
  destruct (SrtBlock.__bool__ b) eqn:E; cbn [fst].
  - rewrite IH. reflexivity.
  - apply IH.
Qed.

Lemma map_result_all_ok {A B : Type} (f : A -> result B) (g : A -> B) l :
  (forall a, In a l -> f a = Ok (g a)) -> map_result f l = Ok (map g l).
Proof.
  induction l as [|a l IH]; intros H; simpl; [reflexivity|].
  rewrite (H a (or_introl eq_refl)). simpl.
  rewrite IH by (intros; apply H; now right). reflexivity.
Qed.

(** [SrtDoc(text)] never raises, and none of its blocks has a [text]
    attribute. *)
Lemma doc_init_spec srt_doc ic :
  exists d,
    SrtDoc.__init__ srt_doc ic = Ok d /\
    length (SrtDoc.blocks d)
    = length (filter non_empty (split [NL; NL] srt_doc)) /\
    Forall (fun b => SrtBlock.text b = None) (SrtDoc.blocks d).
Proof.
  unfold SrtDoc.__init__.
  induction (filter non_empty (split [NL; NL] srt_doc)) as [|chunk l IH].
  - exists (SrtDoc.Build []). repeat split. constructor.
  - destruct IH as (d & Hd & Hlen & F).
    destruct (block_init_spec chunk ic) as (i & t & ls & Hb & _).
    cbn [map_result]. rewrite Hb. cbn [bind].
    destruct (map_result _ l) as [bs|e]; [|discriminate].
    cbn [bind] in *. inversion Hd; subst d. simpl in *.
    eexists. split; [reflexivity|]. simpl. split; [now rewrite Hlen|].
    now constructor.
Qed.

Lemma text_of_fresh_blocks b bs :
  Forall (fun b => SrtBlock.text b = None) (b :: bs) ->
  SrtDoc.text (SrtDoc.Build (b :: bs)) = Raise AttributeError.
Proof.
  intros F. inversion F; subst. unfold SrtDoc.text. simpl.
  unfold SrtDoc.getattr_text.
  match goal with H : SrtBlock.text b = None |- _ => rewrite H end.
  reflexivity.
Qed.

Lemma text_after_assign bs :
  forall vs, length bs <= length vs ->
    map_result SrtDoc.getattr_text (SrtDoc.assign_text bs vs)
    = Ok (firstn (length bs) vs).
Proof.
  induction bs as [|b bs IH]; intros vs Hlen; [reflexivity|].
  destruct vs as [|v vs]; [simpl in Hlen; lia|].
  simpl. rewrite IH by (simpl in Hlen; lia). reflexivity.
Qed.

End Documents.

Lemma join_nl_lines (ls : list str) :
  join [NL] (ls ++ [[NL]]) = concat (map (fun l => l ++ [NL]) ls) ++ [NL].
Proof.
  induction ls as [|l ls IH]; [reflexivity|].
  cbn [app map concat]. rewrite <- app_assoc, <- IH.
  destruct ls; simpl; now rewrite <- ?app_assoc.
Qed.

Lemma block_str_shape b :
  SrtBlock.lines b <> [] ->
  SrtBlock.__str__ b
  = SrtBlock.idx b ++ [NL] ++ SrtBlock._time b ++ [NL] ++ block_body b.
Proof.
  intros Hne. unfold SrtBlock.__str__, SrtBlock.__bool__, block_body.
  destruct (SrtBlock.lines b) as [|l ls] eqn:E; [contradiction|].
  rewrite <- (map_map SrtLine.__str__ (fun s => s ++ [NL])).
  rewrite <- join_nl_lines.
  destruct (map SrtLine.__str__ (filter SrtLine.__bool__ (l :: ls)));
    reflexivity.
Qed.

(** C2: Document render goes through the blocks in order, skips those
    without Lines, gives the i-th surviving block the index [str(i)],
    counting from 1, before rendering it, and concatenates the rendered
    blocks with nothing between them.  With blocks indexed 1, 5 and 7 of
    which the one indexed 5 has no text line, the result is the first
    block rendered under index 1 followed by the third under index 2. *)
Theorem doc_render_renumbers :
  (forall d,
      fst (SrtDoc.__str__ d) = spec_render d /\
      map SrtBlock.idx (survivors (snd (SrtDoc.__str__ d)))
      = map str_of_nat (seq 1 (length (survivors d))))
  /\ forall b1 b5 b7,
      SrtBlock.idx b1 = py "1" ->
      SrtBlock.idx b5 = py "5" ->
      SrtBlock.idx b7 = py "7" ->
      SrtBlock.lines b1 <> [] ->
      SrtBlock.lines b5 = [] ->
      SrtBlock.lines b7 <> [] ->
      fst (SrtDoc.__str__ (SrtDoc.Build [b1; b5; b7]))
      = (py "1" ++ [NL] ++ SrtBlock._time b1 ++ [NL] ++ block_body b1)
        ++ (py "2" ++ [NL] ++ SrtBlock._time b7 ++ [NL] ++ block_body b7).
Proof.
  split.
  - intros d. split.
    + rewrite doc_str_fst, block_iter_renders. reflexivity.
    + unfold survivors. rewrite doc_str_snd. apply block_iter_renumbers.
  - intros b1 b5 b7 _ _ _ H1 H5 H7.
    assert (B1 : SrtBlock.__bool__ b1 = true).
    { unfold SrtBlock.__bool__. now destruct (SrtBlock.lines b1). }
    assert (B5 : SrtBlock.__bool__ b5 = false).
    { unfold SrtBlock.__bool__. now rewrite H5. }
    assert (B7 : SrtBlock.__bool__ b7 = true).
    { unfold SrtBlock.__bool__. now destruct (SrtBlock.lines b7). }
    rewrite doc_str_fst, block_iter_renders.
    cbn [SrtDoc.blocks filter]. rewrite B1, B5, B7.
    cbn [length seq combine map concat fst snd]. rewrite app_nil_r.
    rewrite !block_str_shape by assumption.
    reflexivity.
Qed.

Lemma doc_render_renumbers_witness :
  let line := SrtLine.Build false [SrtFrase.Build false [] (py "Hi") []] in
  let b1 := SrtBlock.Build (py "1") (py "00:01 --> 00:02") [line] None in
  let b5 := SrtBlock.Build (py "5") (py "00:03 --> 00:04") [] None in
  let b7 := SrtBlock.Build (py "7") (py "00:05 --> 00:06") [line] None in
  fst (SrtDoc.__str__ (SrtDoc.Build [b1; b5; b7]))
  = (py "1" ++ [NL] ++ SrtBlock._time b1 ++ [NL] ++ block_body b1)
    ++ (py "2" ++ [NL] ++ SrtBlock._time b7 ++ [NL] ++ block_body b7).
Proof.
  intros line b1 b5 b7.
  apply (proj2 doc_render_renumbers b1 b5 b7);
    try reflexivity; discriminate.
Defined.

(** C9: assigning the document-level text leaves the result of Document
    render as it was; render gives the same text for a document whose
    blocks have lost that attribute altogether. *)
Theorem doc_text_setter_frames_render :
  (forall d value : SrtDoc.t,
      fst (SrtDoc.__str__ (SrtDoc.set_text d value))
      = fst (SrtDoc.__str__ d))
  /\ forall d : SrtDoc.t,
      fst (SrtDoc.__str__ (SrtDoc.Build (map del_text (SrtDoc.blocks d))))
      = fst (SrtDoc.__str__ d).
Proof.
  split.
  - intros d value. rewrite !doc_str_fst. unfold SrtDoc.set_text.
    cbn [SrtDoc.blocks]. now rewrite block_iter_assign_text.
  - intros d. rewrite !doc_str_fst. cbn [SrtDoc.blocks]. f_equal.
    generalize 1. induction (SrtDoc.blocks d) as [|b bs IH]; intros idx;
      [reflexivity|].
    cbn [map]. rewrite !block_iter_cons.
    replace (SrtBlock.__bool__ (del_text b)) with (SrtBlock.__bool__ b)
      by reflexivity.
    destruct (SrtBlock.__bool__ b); cbn [fst]; rewrite IH; reflexivity.
Qed.

(** C10: a freshly parsed Document is built without an error, and when
    it has at least one block, reading its [text] property raises
    AttributeError.  Once the text setter has given every block the
    attribute, the error is no longer that one. *)
Theorem fresh_doc_text_raises :
  (forall srt_doc ic,
      exists d,
        SrtDoc.__init__ srt_doc ic = Ok d /\
        (SrtDoc.blocks d <> [] -> SrtDoc.text d = Raise AttributeError))
  /\ forall d value,
      length (SrtDoc.blocks d) <= length (SrtDoc.blocks value) ->
      SrtDoc.text (SrtDoc.set_text d value) <> Raise AttributeError.
Proof.
  split.
  - intros srt_doc ic.
    destruct (doc_init_spec srt_doc ic) as ([bs] & Hd & _ & F).
    exists (SrtDoc.Build bs). split; [exact Hd|].
    simpl in *. destruct bs as [|b bs]; [congruence|].
    intros _. now apply text_of_fresh_blocks.
  - intros d value Hlen. unfold SrtDoc.text, SrtDoc.set_text.
    cbn [SrtDoc.blocks]. rewrite text_after_assign by exact Hlen.
    cbn [bind]. destruct (firstn _ _); discriminate.
Qed.

Lemma fresh_doc_text_raises_witness :
  (exists d,
      SrtDoc.__init__ (py "1" ++ [NL] ++ py "00:01 --> 00:02" ++ [NL]
                       ++ py "Hi" ++ [NL; NL]) false = Ok d /\
      SrtDoc.blocks d <> [] /\ SrtDoc.text d = Raise AttributeError)
  /\ SrtDoc.text
       (SrtDoc.set_text (SrtDoc.Build [SrtBlock.Build (py "1") [] [] None])
          (SrtDoc.Build [SrtBlock.Build (py "2") [] [] None]))
     <> Raise AttributeError.
Proof.
  split.
  - destruct (proj1 fresh_doc_text_raises
                (py "1" ++ [NL] ++ py "00:01 --> 00:02" ++ [NL]
                 ++ py "Hi" ++ [NL; NL]) false) as (d & Hd & Ht).
    exists d. split; [exact Hd|].
    assert (Hne : SrtDoc.blocks d <> []).
    { vm_compute in Hd. inversion Hd; subst d. discriminate. }
    split; [exact Hne | exact (Ht Hne)].
  - apply (proj2 fresh_doc_text_raises). simpl. lia.
Defined.

(* ===================================================================== *)
(** ** The traversal *)
(* ===================================================================== *)

Section Traversal.

Lemma next_in_lines_spec ls :
  match SrtDoc.next_in_lines ls with
  | Some (f, fs, ls') =>
      flat_map SrtLine.__iter__ ls
      = f :: fs ++ flat_map SrtLine.__iter__ ls'
  | None => flat_map SrtLine.__iter__ ls = []
  end.
Proof.
  induction ls as [|line ls IH]; cbn [SrtDoc.next_in_lines flat_map].
  - reflexivity.
  - destruct (SrtLine.__iter__ line) as [|f fs]; [exact IH | reflexivity].
Qed.

Lemma next_in_blocks_spec bs :
  match SrtDoc.next_in_blocks bs with
  | Some (f, g) =>
      flat_map SrtBlock.__iter__ bs = f :: SrtDoc.remaining g
  | None => flat_map SrtBlock.__iter__ bs = []
  end.
Proof.
  induction bs as [|block bs IH]; cbn [SrtDoc.next_in_blocks flat_map].
  - reflexivity.
  - assert (Hb : SrtBlock.__iter__ block
                 = flat_map SrtLine.__iter__ (SrtBlock.lines block))
      by reflexivity.
    rewrite Hb. clear Hb.
    pose proof (next_in_lines_spec (SrtBlock.lines block)) as Hl.
    destruct (SrtDoc.next_in_lines (SrtBlock.lines block))
      as [[[f fs] ls]|].
    + rewrite Hl. unfold SrtDoc.remaining.
      cbn [SrtDoc.g_frases SrtDoc.g_lines SrtDoc.g_blocks].
      cbn [app]. now rewrite <- ?app_assoc.
    + rewrite Hl. exact IH.
Qed.

(** [next] yields the first of what is left, and [StopIteration] when
    nothing is. *)
Lemma next_spec g :
  match SrtDoc.next g with
  | Some (f, g') => SrtDoc.remaining g = f :: SrtDoc.remaining g'
  | None => SrtDoc.remaining g = []
  end.
Proof.
  unfold SrtDoc.next, SrtDoc.remaining.
  destruct (SrtDoc.g_frases g) as [|f fs]; [|reflexivity].
  cbn [app].
  pose proof (next_in_lines_spec (SrtDoc.g_lines g)) as Hl.
  destruct (SrtDoc.next_in_lines (SrtDoc.g_lines g)) as [[[f fs] ls]|].
  - rewrite Hl. cbn [SrtDoc.g_frases SrtDoc.g_lines SrtDoc.g_blocks].
    cbn [app]. now rewrite <- ?app_assoc.
  - rewrite Hl. cbn [app].
    pose proof (next_in_blocks_spec (SrtDoc.g_blocks g)) as Hb.
    destruct (SrtDoc.next_in_blocks (SrtDoc.g_blocks g)) as [[f g']|];
      exact Hb.
Qed.

(** Calling [next] more often than there are frases left exhausts the
    generator, and what it yielded is what was left, in order. *)
Lemma drain_enough fuel :
  forall g, length (SrtDoc.remaining g) < fuel ->
            SrtDoc.drain fuel g = Some (SrtDoc.remaining g).
Proof.
  induction fuel as [|fuel IH]; intros g Hlen; [lia|].
  cbn [SrtDoc.drain]. pose proof (next_spec g) as Hn.
  destruct (SrtDoc.next g) as [[f g']|].
  - rewrite Hn in *. rewrite IH by (simpl in Hlen; lia). reflexivity.
  - now rewrite Hn.
Qed.

Lemma remaining_frases d : SrtDoc.remaining (SrtDoc.frases d) = document_order d.
Proof. reflexivity. Qed.

Lemma same_frase_refl f : same_frase f f.
Proof. now destruct f. Qed.

Lemma same_frase_trans f1 f2 f3 :
  same_frase f1 f2 -> same_frase f2 f3 -> same_frase f1 f3.
Proof. unfold same_frase. intros -> ->. reflexivity. Qed.

Lemma Forall2_refl {A : Type} (R : A -> A -> Prop) l :
  (forall a, R a a) -> Forall2 R l l.
Proof. intros H. induction l; constructor; auto. Qed.

Lemma Forall2_trans {A : Type} (R : A -> A -> Prop) :
  (forall a b c, R a b -> R b c -> R a c) ->
  forall l1 l2 l3, Forall2 R l1 l2 -> Forall2 R l2 l3 -> Forall2 R l1 l3.
Proof.
  intros HR l1 l2 l3 H12. revert l3.
  induction H12; intros l3 H23; inversion H23; subst; constructor; eauto.
Qed.

Lemma Forall2_flat_map {A B : Type} (R : B -> B -> Prop)
    (f g : A -> list B) l :
  forall l', Forall2 (fun a a' => Forall2 R (f a) (g a')) l l' ->
             Forall2 R (flat_map f l) (flat_map g l').
Proof.
  induction l as [|a l IH]; intros l' H; inversion H; subst; simpl.
  - constructor.
  - apply Forall2_app; auto.
Qed.

Lemma Forall2_map_at {A : Type} (R : A -> A -> Prop) (f : A -> A) l :
  (forall a, R a a) -> (forall a, R a (f a)) ->
  forall n, Forall2 R l (map_at n f l).
Proof.
  intros Hr Hf. induction l as [|a l IH]; intros [|n]; simpl;
    constructor; auto.
  now apply Forall2_refl.
Qed.

Lemma set_frase_text_keeps bi li fi value d :
  Forall2 same_frase (document_order d)
          (document_order (set_frase_text bi li fi value d)).
Proof.
  unfold document_order, set_frase_text. cbn [SrtDoc.blocks].
  apply Forall2_flat_map.
  apply (Forall2_map_at
           (fun b b' =>
              Forall2 same_frase
                (flat_map SrtLine._frases (SrtBlock.lines b))
                (flat_map SrtLine._frases (SrtBlock.lines b')))).
  - intros b. apply Forall2_refl, same_frase_refl.
  - intros b. cbn [SrtBlock.lines]. apply Forall2_flat_map.
    apply (Forall2_map_at
             (fun l l' =>
                Forall2 same_frase (SrtLine._frases l) (SrtLine._frases l'))).
    + intros l. apply Forall2_refl, same_frase_refl.
    + intros l. cbn [SrtLine._frases].
      apply Forall2_map_at; [apply same_frase_refl|].
      intros f. reflexivity.
Qed.

Lemma block_iter_keeps bs :
  forall idx,
    flat_map SrtBlock.__iter__ (snd (SrtDoc.block_iter idx bs))
    = flat_map SrtBlock.__iter__ bs.
Proof.
  induction bs as [|b bs IH]; intros idx; [reflexivity|].
  rewrite block_iter_cons.
  destruct (SrtBlock.__bool__ b); cbn [snd flat_map]; now rewrite IH.
Qed.

Lemma assign_text_keeps bs :
  forall vs,
    flat_map SrtBlock.__iter__ (SrtDoc.assign_text bs vs)
    = flat_map SrtBlock.__iter__ bs.
Proof.
  induction bs as [|b bs IH]; intros [|v vs]; try reflexivity.
  cbn [SrtDoc.assign_text flat_map]. now rewrite IH.
Qed.

Lemma non_structural_keeps d d' :
  non_structural d d' ->
  Forall2 same_frase (document_order d) (document_order d').
Proof.
  induction 1.
  - apply Forall2_refl, same_frase_refl.
  - eapply Forall2_trans;
      [exact same_frase_trans | exact IHnon_structural |].
    apply set_frase_text_keeps.
  - replace (document_order (snd (SrtDoc.__str__ d')))
      with (document_order d'); [exact IHnon_structural|].
    unfold document_order at 2.
    rewrite doc_str_snd.
    symmetry. apply (block_iter_keeps (SrtDoc.blocks d') 1).
  - replace (document_order (SrtDoc.set_text d' value))
      with (document_order d'); [exact IHnon_structural|].
    symmetry. apply (assign_text_keeps (SrtDoc.blocks d')).
Qed.

End Traversal.

(** C4: exhausting the generator of [frases()] yields the Spans in
    document order, Document -> Block -> Line -> Span, however many calls
    of [next] are allowed beyond their number; and a second traversal,
    after the document went through changes that add or remove no Block
    and no Line, yields as many Spans, each the Span the first traversal
    yielded at that position. *)
Theorem traversal_is_stable (d d' : SrtDoc.t) :
  non_structural d d' ->
  (forall fuel, length (document_order d) < fuel ->
                SrtDoc.drain fuel (SrtDoc.frases d) = Some (document_order d))
  /\ (forall fuel, length (document_order d') < fuel ->
                   SrtDoc.drain fuel (SrtDoc.frases d')
                   = Some (document_order d'))
  /\ length (document_order d') = length (document_order d)
  /\ Forall2 same_frase (document_order d) (document_order d').
Proof.
  intros Hns. pose proof (non_structural_keeps _ _ Hns) as F.
  repeat split.
  - intros fuel Hlen. rewrite <- remaining_frases. apply drain_enough.
    now rewrite remaining_frases.
  - intros fuel Hlen. rewrite <- remaining_frases. apply drain_enough.
    now rewrite remaining_frases.
  - symmetry. eapply Forall2_length; eauto.
  - exact F.
Qed.

Lemma traversal_is_stable_witness :
  let f := SrtFrase.Build false (py "<font>") (py "Hi there") (py "</font>") in
  let g := SrtFrase.Build false [] (py "you") [] in
  let d := SrtDoc.Build
             [SrtBlock.Build (py "1") (py "00:01 --> 00:02")
                [SrtLine.Build false [f]; SrtLine.Build false [g]] None;
              SrtBlock.Build (py "4") (py "00:03 --> 00:04") [] None] in
  let d' := snd (SrtDoc.__str__ (set_frase_text 0 1 0 (py "toi") d)) in
  (forall fuel, length (document_order d) < fuel ->
                SrtDoc.drain fuel (SrtDoc.frases d) = Some (document_order d))
  /\ (forall fuel, length (document_order d') < fuel ->
                   SrtDoc.drain fuel (SrtDoc.frases d')
                   = Some (document_order d'))
  /\ length (document_order d') = length (document_order d)
  /\ Forall2 same_frase (document_order d) (document_order d').
Proof.
  intros f g d d'.
  apply (traversal_is_stable d d').
  apply ns_render, ns_frase_text, ns_same.
Defined.

(* ===================================================================== *)
(** ** The bounds on the loops are never reached *)
(* ===================================================================== *)

Section Fuel.

Lemma greedy_ext body (Hb : forall k1 k2 st,
                          (forall s, k1 s = k2 s) -> body k1 st = body k2 st) :
  forall fuel k1 k2 st,
    (forall s, k1 s = k2 s) ->
    greedy body k1 fuel st = greedy body k2 fuel st.
Proof.
  induction fuel as [|fuel IH]; intros k1 k2 st Hk; simpl; [apply Hk|].
  rewrite (Hk st). f_equal. apply Hb. intros s.
  destruct (progressed st s); [now apply IH | apply Hk].
Qed.

Lemma lazy_ext body (Hb : forall k1 k2 st,
                        (forall s, k1 s = k2 s) -> body k1 st = body k2 st) :
  forall fuel k1 k2 st,
    (forall s, k1 s = k2 s) ->
    lazy body k1 fuel st = lazy body k2 fuel st.
Proof.
  induction fuel as [|fuel IH]; intros k1 k2 st Hk; simpl; [apply Hk|].
  rewrite (Hk st). destruct (k2 st); simpl; [reflexivity|].
  apply Hb. intros s. destruct (progressed st s); [now apply IH | reflexivity].
Qed.

(** The matcher uses the rest of the pattern only through its results. *)
Lemma run_ext r :
  forall k1 k2 st, (forall s, k1 s = k2 s) -> run r k1 st = run r k2 st.
Proof.
  induction r; intros k1 k2 st Hk; cbn [run].
  - destruct (advance st) as [[x st']|]; [|reflexivity].
    destruct (cset_mem c x); [apply Hk | reflexivity].
  - apply IHr1. intros s. now apply IHr2.
  - rewrite (IHr1 k1 k2 st Hk). destruct (run r1 k2 st); simpl;
      [reflexivity | now apply IHr2].
  - now apply greedy_ext.
  - now apply lazy_ext.
  - apply IHr. intros s. now apply greedy_ext.
  - rewrite (IHr k1 k2 st Hk). destruct (run r k2 st); simpl;
      [reflexivity | apply Hk].
  - apply IHr. intros s. apply Hk.
  - destruct (lookup n (marks st)); [now apply IHr | apply Hk].
  - destruct (before st); [apply Hk | reflexivity].
  - destruct (before st) as [|x bef]; [reflexivity|].
    destruct (cset_mem c x); [apply Hk | reflexivity].
Qed.

(** A greedy loop gives the same result for every bound above the length
    of what is left of the subject. *)
Lemma greedy_fuel r k n :
  forall st fuel1 fuel2,
    length (after st) <= n ->
    length (after st) < fuel1 -> length (after st) < fuel2 ->
    greedy (run r) k fuel1 st = greedy (run r) k fuel2 st.
Proof.
  induction n as [|n IH]; intros st [|f1] [|f2] Hn H1 H2; try lia;
    rewrite !greedy_S; f_equal; apply run_ext; intros s;
    unfold progressed; destruct (Nat.ltb_spec (length (after s))
                                   (length (after st)));
    try reflexivity; try lia.
  apply IH; lia.
Qed.

Lemma lazy_fuel r k n :
  forall st fuel1 fuel2,
    length (after st) <= n ->
    length (after st) < fuel1 -> length (after st) < fuel2 ->
    lazy (run r) k fuel1 st = lazy (run r) k fuel2 st.
Proof.
  induction n as [|n IH]; intros st [|f1] [|f2] Hn H1 H2; try lia;
    cbn [lazy]; destruct (k st); cbn [orelse]; try reflexivity;
    apply run_ext; intros s;
    unfold progressed; destruct (Nat.ltb_spec (length (after s))
                                   (length (after st)));
    try reflexivity; try lia.
  apply IH; lia.
Qed.

(** [finditer] gives the same matches for every bound above the length of
    the text. *)
Lemma finditer_from_fuel r n :
  forall bef aft fuel1 fuel2,
    length aft <= n -> length aft < fuel1 -> length aft < fuel2 ->
    finditer_from r fuel1 bef aft = finditer_from r fuel2 bef aft.
Proof.
  induction n as [|n IH]; intros bef aft [|f1] [|f2] Hn H1 H2; try lia;
    cbn [finditer_from];
    (destruct (match_at r bef aft) as [st|];
     [f_equal; destruct (Nat.ltb_spec (length (after st)) (length aft))|]);
    try (destruct aft as [|c aft]; [reflexivity|]; simpl in *);
    try lia; try (apply IH; simpl in *; lia).
Qed.

End Fuel.

(* ===================================================================== *)
(** ** The example of the specification, end to end *)
(* ===================================================================== *)

Example translate_and_render :
  let input :=
    py "1" ++ [NL] ++ py "00:00:01,000 --> 00:00:02,000" ++ [NL]
    ++ py "<font color=" ++ [DQ] ++ py "#ffff00" ++ [DQ]
    ++ py ">Hi there</font>" ++ [NL; NL]
    ++ py "2" ++ [NL] ++ py "00:00:03,000 --> 00:00:04,000" ++ [NL; NL] in
  exists d,
    SrtDoc.__init__ input false = Ok d /\
    map SrtFrase.text (document_order d) = [py "Hi there"] /\
    fst (SrtDoc.__str__ (set_frase_text 0 0 0 (py "Bonjour") d))
    = py "1" ++ [NL] ++ py "00:00:01,000 --> 00:00:02,000" ++ [NL]
      ++ py "<font color=" ++ [DQ] ++ py "#ffff00" ++ [DQ]
      ++ py ">Bonjour</font>" ++ [NL; NL].
Proof.
  eexists. split; [vm_compute; reflexivity|].
  split; vm_compute; reflexivity.
Qed.

(* ===================================================================== *)
(** ** More about lines, blocks and documents *)
(* ===================================================================== *)

Section MoreSubtitles.

Lemma line_init_line_of text ic : SrtLine.__init__ text ic = Ok (line_of ic text).
Proof. apply line_init_spec. Qed.

Lemma frases_of_match_parsed ic mt f :
  In f (frases_of_match ic mt) -> parsed_frase ic f.
Proof.
  intros Hin. split; [eapply frases_of_match_trimmed; eauto|].
  unfold frases_of_match in Hin.
  destruct (SrtLine.py_or (group mt 4) (group mt 2)) as [s|];
    [|contradiction].
  destruct (non_empty (strip s)); [|contradiction].
  destruct Hin as [<- | []]. reflexivity.
Qed.

Lemma line_of_frases_parsed ic text :
  Forall (parsed_frase ic) (SrtLine._frases (line_of ic text)).
Proof.
  apply Forall_forall. intros f Hin. apply in_flat_map in Hin.
  destruct Hin as (mt & _ & Hin). eapply frases_of_match_parsed; eauto.
Qed.

(** The loop over the text lines keeps the Lines that hold a Span, in
    order. *)
Lemma parse_lines_exact no_col ls :
  forall self,
    SrtBlock.parse_lines ls no_col self
    = (Ok tt,
       SrtBlock.Build (SrtBlock.idx self) (SrtBlock._time self)
         (SrtBlock.lines self
          ++ filter SrtLine.__bool__ (map (line_of no_col) (map strip ls)))
         (SrtBlock.text self)).
Proof.
  induction ls as [|line ls IH]; intros self; cbn [SrtBlock.parse_lines].
  - cbn [map filter]. rewrite app_nil_r. now destruct self.
  - unfold sbind at 1, lift. rewrite line_init_line_of. cbn [map filter].
    destruct (SrtLine.__bool__ (line_of no_col (strip line))) eqn:E.
    + unfold sbind, modify. rewrite IH. cbn [SrtBlock.append_line
        SrtBlock.idx SrtBlock._time SrtBlock.lines SrtBlock.text].
      now rewrite <- app_assoc.
    + unfold sbind, sret. apply IH.
Qed.

Lemma block_init_exact chunk ic first rest :
  split [NL] (strip chunk) = first :: rest ->
  SrtBlock.__init__ chunk ic
  = Ok (SrtBlock.Build first (hd [] rest)
          (filter SrtLine.__bool__
             (map (line_of ic) (map strip (tl rest)))) None).
Proof.
  intros E. unfold SrtBlock.__init__, SrtBlock._parse. rewrite E.
  destruct rest as [|second rest]; [reflexivity|].
  unfold try_except_IndexError, sbind at 1 2 3 4, lift, modify, getitem.
  cbn [nth_error skipn]. rewrite parse_lines_exact. reflexivity.
Qed.

Lemma filtered_lines_parsed ic texts :
  Forall (parsed_line ic)
         (filter SrtLine.__bool__ (map (line_of ic) texts)).
Proof.
  apply Forall_forall. intros l Hin. apply filter_In in Hin.
  destruct Hin as [Hin Hb]. apply in_map_iff in Hin.
  destruct Hin as (t & <- & _). repeat split; auto.
  apply line_of_frases_parsed.
Qed.

Lemma block_init_parsed chunk ic :
  exists b, SrtBlock.__init__ chunk ic = Ok b /\ parsed_block ic b.
Proof.
  destruct (split [NL] (strip chunk)) as [|first rest] eqn:E.
  - now apply split_not_nil in E.
  - rewrite (block_init_exact _ _ _ _ E). eexists. split; [reflexivity|].
    split; [reflexivity | apply filtered_lines_parsed].
Qed.

Lemma map_result_forall {A B : Type} (f : A -> result B) (P : B -> Prop) l :
  (forall a, exists b, f a = Ok b /\ P b) ->
  exists bs, map_result f l = Ok bs /\ Forall P bs /\ length bs = length l.
Proof.
  intros H. induction l as [|a l (bs & Hbs & F & Hlen)].
  - exists []. repeat split. constructor.
  - destruct (H a) as (b & Hb & Pb). exists (b :: bs). simpl.
    rewrite Hb, Hbs. simpl. repeat split; [now constructor | now rewrite Hlen].
Qed.

Lemma In_lstrip x s : In x (lstrip s) -> In x s.
Proof.
  induction s as [|c s IH]; simpl; [auto|].
  destruct (isspace c); [intros H; right; auto | auto].
Qed.

Lemma In_strip x s : In x (strip s) -> In x s.
Proof.
  unfold strip, rstrip. intros H. apply In_lstrip.
  apply in_rev in H. apply In_lstrip in H. now apply in_rev in H.
Qed.

Lemma no_markup_strip s : no_markup s -> no_markup (strip s).
Proof.
  intros [Hl Hg]. split; intros H; apply In_strip in H; contradiction.
Qed.

Lemma frases_of_match_kind text ic mt f :
  In mt (finditer line_regex text) ->
  In f (frases_of_match ic mt) -> plain_frase f \/ tagged_frase f.
Proof.
  intros Hmt Hf. apply finditer_line_regex_groups in Hmt.
  unfold frases_of_match, group in Hf.
  destruct Hmt as [(g1 & g2 & g3 & toks & Hg & Ho & H3 & Hne & F)
                  | (g4 & Hg & Hne & Hn)]; rewrite Hg in Hf; simpl in Hf.
  - right. destruct (non_empty (strip g2)); [|contradiction].
    destruct Hf as [<- | []]. unfold tagged_frase, SrtFrase.__init__. simpl.
    assert (E1 : SrtFrase.or_empty (Some g1) = g1).
    { destruct Ho as (ws & attrs & -> & _). reflexivity. }
    assert (E3 : SrtFrase.or_empty (Some g3) = g3).
    { subst g3. destruct (concat toks ++ [gt_]) eqn:E; [|reflexivity].
      now apply app_eq_nil in E. }
    simpl in E1, E3. rewrite E1, E3. split; [exact Ho|]. exists toks. auto.
  - left. destruct g4 as [|c g4]; [contradiction|]. simpl in Hf.
    destruct (non_empty (strip (c :: g4))); [|contradiction].
    destruct Hf as [<- | []]. unfold plain_frase, SrtFrase.__init__. simpl.
    repeat split; try reflexivity; rewrite strip_idem;
      apply (no_markup_strip _ Hn).
Qed.

Lemma join_map_cons sep (f : SrtFrase.t -> str) x fs :
  fs <> [] ->
  join sep (map f (x :: fs)) = f x ++ sep ++ join sep (map f fs).
Proof. destruct fs; [contradiction | reflexivity]. Qed.

Lemma join_frases_ext (f g : SrtFrase.t -> str) fs :
  Forall (fun x => f x = g x) fs ->
  join (py " ") (map f fs) = join (py " ") (map g fs).
Proof. intros F. f_equal. apply map_ext_Forall. exact F. Qed.

Lemma join_snoc sep (items : list str) x :
  items <> [] -> join sep (items ++ [x]) = join sep items ++ sep ++ x.
Proof.
  induction items as [|a [|b items] IH]; intros Hne.
  - contradiction.
  - reflexivity.
  - change ((a :: b :: items) ++ [x]) with (a :: (b :: items) ++ [x]).
    cbn [join app] in *. rewrite IH by discriminate.
    now rewrite <- !app_assoc.
Qed.

Lemma block_iter_twice bs :
  forall idx,
    SrtDoc.block_iter idx (snd (SrtDoc.block_iter idx bs))
    = SrtDoc.block_iter idx bs.
Proof.
  induction bs as [|b bs IH]; intros idx; [reflexivity|].
  rewrite (block_iter_cons idx b bs).
  destruct (SrtBlock.__bool__ b) eqn:E; cbn [snd].
  - rewrite block_iter_cons.
    replace (SrtBlock.__bool__ (SrtBlock.set_idx (str_of_nat idx) b))
      with true by (now destruct b).
    rewrite IH. reflexivity.
  - rewrite block_iter_cons, E, IH. reflexivity.
Qed.

Lemma body_ends (ls : list SrtLine.t) :
  exists pre,
    [NL] ++ concat (map (fun l => SrtLine.__str__ l ++ [NL]) ls) ++ [NL]
    = pre ++ [NL; NL].
Proof.
  destruct ls as [|l ls _] using rev_ind.
  - exists []. reflexivity.
  - exists ([NL] ++ concat (map (fun l => SrtLine.__str__ l ++ [NL]) ls)
            ++ SrtLine.__str__ l).
    rewrite map_app, concat_app. cbn [map concat].
    rewrite app_nil_r. repeat rewrite <- app_assoc. reflexivity.
Qed.

Lemma block_str_ends b :
  SrtBlock.lines b <> [] ->
  exists pre, SrtBlock.__str__ b = pre ++ [NL; NL].
Proof.
  intros Hne. rewrite (block_str_shape _ Hne). unfold block_body.
  destruct (body_ends (filter SrtLine.__bool__ (SrtBlock.lines b)))
    as (pre & E).
  exists (SrtBlock.idx b ++ [NL] ++ SrtBlock._time b ++ pre).
  rewrite E. now rewrite <- !app_assoc.
Qed.

End MoreSubtitles.

(** X1: [SrtBlock(chunk)] never raises.  The first line of the stripped
    chunk becomes the index and the second, if there is one, the time
    range, both as they stand; of the further lines, each stripped and
    parsed as a Line, the block keeps those that hold a Span, in order. *)
Theorem block_parse_characterised (chunk : str) (ic : bool) :
  exists first rest ls,
    split [NL] (strip chunk) = first :: rest /\
    Forall2 (fun text l => SrtLine.__init__ (strip text) ic = Ok l)
            (tl rest) ls /\
    SrtBlock.__init__ chunk ic
    = Ok (SrtBlock.Build first (hd [] rest)
            (filter SrtLine.__bool__ ls) None).
Proof.
  destruct (split [NL] (strip chunk)) as [|first rest] eqn:E.
  - now apply split_not_nil in E.
  - exists first, rest, (map (line_of ic) (map strip (tl rest))).
    split; [reflexivity|]. split.
    + induction (tl rest) as [|t ts IH]; constructor; auto.
      apply line_init_line_of.
    + now apply block_init_exact.
Qed.

(** X2: [SrtDoc(text)] never raises and builds one Block for every
    non-empty chunk between blank lines; no Block has a [text]
    attribute, every Line kept in a Block holds a Span, and every Span
    has a non-empty trimmed text and the markup flag of the parse. *)
Theorem parsed_document_invariant (srt_doc : str) (ic : bool) :
  exists d,
    SrtDoc.__init__ srt_doc ic = Ok d /\
    length (SrtDoc.blocks d)
    = length (filter non_empty (split [NL; NL] srt_doc)) /\
    Forall (parsed_block ic) (SrtDoc.blocks d).
Proof.
  unfold SrtDoc.__init__.
  destruct (map_result_forall
              (fun block => SrtBlock.__init__ block ic) (parsed_block ic)
              (filter non_empty (split [NL; NL] srt_doc))
              (fun chunk => block_init_parsed chunk ic))
    as (bs & -> & F & Hlen).
  exists (SrtDoc.Build bs). simpl. auto.
Qed.

(** X3: the tags of a Span come in pairs.  Every Span of a parsed Line
    either has no opening and no closing tag, and then no angle bracket
    in its text, or has an opening font tag and a closing sequence of one
    or more closing font tokens and a [>]. *)
Theorem spans_are_plain_or_tagged (text : str) (ic : bool) :
  exists l,
    SrtLine.__init__ text ic = Ok l /\
    Forall (fun f => plain_frase f \/ tagged_frase f) (SrtLine._frases l).
Proof.
  rewrite line_init_line_of. eexists. split; [reflexivity|].
  apply Forall_forall. intros f Hin. apply in_flat_map in Hin.
  destruct Hin as (mt & Hmt & Hf). eapply frases_of_match_kind; eauto.
Qed.

Lemma line_str_by_mode ic text (g : SrtFrase.t -> str) :
  (forall x, parsed_frase ic x -> SrtFrase.__str__ x = g x) ->
  SrtLine.__str__ (line_of ic text)
  = join (py " ") (map g (SrtLine._frases (line_of ic text))).
Proof.
  intros Hg. unfold SrtLine.__str__.
  pose proof (line_of_frases_parsed ic text) as F.
  destruct (SrtLine._frases (line_of ic text)) as [|f fs]; [reflexivity|].
  apply join_frases_ext. eapply Forall_impl; [|exact F]. exact Hg.
Qed.

(** X4: a Line parsed with the markup suppressed renders as the texts of
    its Spans joined by single spaces; parsed with the markup kept, it
    renders as the Spans, each between its tags, joined by single
    spaces. *)
Theorem line_render_by_mode (text : str) :
  (exists l,
      SrtLine.__init__ text true = Ok l /\
      SrtLine.__str__ l = join (py " ") (map SrtFrase.text (SrtLine._frases l)))
  /\ (exists l,
         SrtLine.__init__ text false = Ok l /\
         SrtLine.__str__ l = join (py " ") (map with_tags (SrtLine._frases l))).
Proof.
  split; rewrite line_init_line_of; eexists; (split; [reflexivity|]);
    apply line_str_by_mode; intros x [[Hne _] Hic];
    unfold SrtFrase.__str__, with_tags, SrtFrase.text in *; rewrite Hic;
    destruct (SrtFrase._text x); try contradiction; reflexivity.
Qed.

Lemma line_of_plain line ic :
  no_markup line ->
  line_of ic line
  = SrtLine.Build ic (if non_empty (strip line)
                      then [SrtFrase.Build ic [] (strip line) []]
                      else []).
Proof.
  intros Hn. unfold line_of. destruct line as [|c l]; [reflexivity|].
  rewrite (finditer_plain _ _ Hn). cbn [flat_map]. rewrite app_nil_r.
  unfold frases_of_match, group. cbn [groups lookup Nat.eqb SrtLine.py_or].
  destruct (non_empty (strip (c :: l))); [|reflexivity].
  unfold SrtFrase.__init__. cbn [SrtFrase.or_empty]. now rewrite strip_idem.
Qed.

Lemma line_of_plain_str line ic :
  no_markup line -> SrtLine.__str__ (line_of ic line) = strip line.
Proof.
  intros Hn. rewrite (line_of_plain _ _ Hn). unfold SrtLine.__str__.
  destruct (strip line) as [|x t] eqn:E; cbn [non_empty SrtLine._frases].
  - reflexivity.
  - cbn [map join]. apply frase_str_plain. discriminate.
Qed.

(** X5: a line without markup parses to a Line with one Span, whose text
    is the stripped line and which has no tags, or to a Line with no Span
    when the line is empty or all white space; parsing the rendered Line
    again gives the same Line. *)
Theorem plain_line_is_one_span (line : str) (ic : bool) :
  no_markup line ->
  exists l,
    SrtLine.__init__ line ic = Ok l /\
    SrtLine._frases l
    = (if non_empty (strip line)
       then [SrtFrase.Build ic [] (strip line) []]
       else []) /\
    SrtLine.__init__ (SrtLine.__str__ l) ic = Ok l.
Proof.
  intros Hn. rewrite line_init_line_of. eexists. split; [reflexivity|].
  split.
  - now rewrite (line_of_plain _ _ Hn).
  - rewrite (line_of_plain_str _ _ Hn), line_init_line_of.
    rewrite (line_of_plain _ _ (no_markup_strip _ Hn)), strip_idem.
    now rewrite (line_of_plain _ _ Hn).
Qed.

Lemma plain_line_is_one_span_witness :
  exists l,
    SrtLine.__init__ (py " so  what ") true = Ok l /\
    SrtLine._frases l
    = (if non_empty (strip (py " so  what "))
       then [SrtFrase.Build true [] (strip (py " so  what ")) []]
       else []) /\
    SrtLine.__init__ (SrtLine.__str__ l) true = Ok l.
Proof.
  apply (plain_line_is_one_span (py " so  what ") true).
  split; intros H; vm_compute in H;
    repeat (destruct H as [H | H]; [discriminate H|]); exact H.
Defined.

(** X6: rendering a document a second time returns the same text and
    leaves the document as the first rendering left it. *)
Theorem render_is_idempotent (d : SrtDoc.t) :
  SrtDoc.__str__ (snd (SrtDoc.__str__ d)) = SrtDoc.__str__ d.
Proof.
  unfold SrtDoc.__str__ at 2.
  destruct (SrtDoc.block_iter 1 (SrtDoc.blocks d)) as [out bs] eqn:E.
  cbn [snd]. unfold SrtDoc.__str__. cbn [SrtDoc.blocks].
  replace bs with (snd (SrtDoc.block_iter 1 (SrtDoc.blocks d)))
    by (now rewrite E).
  rewrite block_iter_twice, E. reflexivity.
Qed.

Lemma block_iter_no_survivor bs :
  forall idx, filter SrtBlock.__bool__ bs = [] ->
              fst (SrtDoc.block_iter idx bs) = [].
Proof. intros idx H. rewrite block_iter_renders, H. reflexivity. Qed.

Lemma block_iter_ends bs :
  forall idx, filter SrtBlock.__bool__ bs <> [] ->
              exists pre,
                concat (fst (SrtDoc.block_iter idx bs)) = pre ++ [NL; NL].
Proof.
  induction bs as [|b bs IH]; intros idx Hne; [contradiction|].
  rewrite block_iter_cons. cbn [filter] in Hne.
  destruct (SrtBlock.__bool__ b) eqn:E; cbn [fst concat].
  - destruct (filter SrtBlock.__bool__ bs) as [|b' bs'] eqn:Ef.
    + rewrite (block_iter_no_survivor _ _ Ef). cbn [concat].
      rewrite app_nil_r. apply block_str_ends.
      unfold SrtBlock.__bool__ in E. cbn [SrtBlock.set_idx SrtBlock.lines].
      destruct (SrtBlock.lines b); [discriminate | discriminate].
    + destruct (IH (idx + 1) ltac:(discriminate)) as (pre & ->).
      eexists. now rewrite app_assoc.
  - apply IH. exact Hne.
Qed.

(** X7: a document renders to the empty string exactly when none of its
    blocks has a Line; every other rendering ends with a blank line. *)
Theorem render_empty_iff_no_survivor (d : SrtDoc.t) :
  (fst (SrtDoc.__str__ d) = [] <-> survivors d = [])
  /\ (survivors d <> [] ->
      exists pre, fst (SrtDoc.__str__ d) = pre ++ [NL; NL]).
Proof.
  rewrite doc_str_fst. unfold survivors.
  assert (Hends : filter SrtBlock.__bool__ (SrtDoc.blocks d) <> [] ->
                  exists pre,
                    concat (fst (SrtDoc.block_iter 1 (SrtDoc.blocks d)))
                    = pre ++ [NL; NL])
    by apply block_iter_ends.
  split; [split|exact Hends].
  - intros H.
    destruct (filter SrtBlock.__bool__ (SrtDoc.blocks d)) eqn:E;
      [reflexivity|].
    destruct (Hends ltac:(discriminate)) as (pre & Hp).
    rewrite Hp in H. now apply app_eq_nil in H.
  - intros H. now rewrite (block_iter_no_survivor _ _ H).
Qed.

Lemma render_empty_iff_no_survivor_witness :
  let line := SrtLine.Build false [SrtFrase.Build false [] (py "Hi") []] in
  let d := SrtDoc.Build [SrtBlock.Build (py "3") (py "00:01 --> 00:02")
                           [line] None] in
  exists pre, fst (SrtDoc.__str__ d) = pre ++ [NL; NL].
Proof.
  intros line d. apply (proj2 (render_empty_iff_no_survivor d)).
  discriminate.
Defined.

Lemma getattr_missing bs :
  Exists (fun b => SrtBlock.text b = None) bs ->
  map_result SrtDoc.getattr_text bs = Raise AttributeError.
Proof.
  induction 1 as [b bs H | b bs _ IH]; cbn [map_result];
    unfold SrtDoc.getattr_text at 1.
  - now rewrite H.
  - destruct (SrtBlock.text b); [|reflexivity]. cbn [bind].
    now rewrite IH.
Qed.

Lemma getattr_all_there bs :
  Forall (fun b => SrtBlock.text b <> None) bs ->
  exists items, map_result SrtDoc.getattr_text bs = Ok items
                /\ length items = length bs.
Proof.
  induction 1 as [|b bs H _ (items & IH & Hlen)].
  - exists []. auto.
  - cbn [map_result]. unfold SrtDoc.getattr_text at 1.
    destruct (SrtBlock.text b) as [v|]; [|contradiction].
    exists (v :: items). cbn [bind]. rewrite IH. simpl. auto.
Qed.

(** X8: reading the [text] property of a document with at least one
    block never returns: it raises AttributeError when some block has no
    [text] attribute, and TypeError when every block has one. *)
Theorem text_property_never_returns (d : SrtDoc.t) :
  SrtDoc.blocks d <> [] ->
  (Exists (fun b => SrtBlock.text b = None) (SrtDoc.blocks d) ->
   SrtDoc.text d = Raise AttributeError)
  /\ (Forall (fun b => SrtBlock.text b <> None) (SrtDoc.blocks d) ->
      SrtDoc.text d = Raise TypeError).
Proof.
  intros Hne. unfold SrtDoc.text. split.
  - intros H. now rewrite (getattr_missing _ H).
  - intros H. destruct (getattr_all_there _ H) as (items & -> & Hlen).
    cbn [bind]. destruct items; [|reflexivity].
    destruct (SrtDoc.blocks d); [contradiction | discriminate].
Qed.

Lemma text_property_never_returns_witness :
  let b := SrtBlock.Build (py "1") (py "00:01 --> 00:02") [] None in
  let b' := SrtBlock.Build (py "1") (py "00:01 --> 00:02") [] (Some b) in
  SrtDoc.text (SrtDoc.Build [b'; b]) = Raise AttributeError
  /\ SrtDoc.text (SrtDoc.Build [b'; b']) = Raise TypeError.
Proof.
  intros b b'. split.
  - apply (text_property_never_returns (SrtDoc.Build [b'; b]));
      [discriminate|].
    apply Exists_cons_tl, Exists_cons_hd. reflexivity.
  - apply (text_property_never_returns (SrtDoc.Build [b'; b']));
      [discriminate|].
    repeat constructor; discriminate.
Defined.

(** X9: a block without a Line renders as the empty string; a block with
    one renders as its index, a newline, its time range, a newline, each
    of its Lines that holds a Span followed by a newline, and one more
    newline. *)
Theorem block_render_shape (b : SrtBlock.t) :
  SrtBlock.__str__ b
  = if SrtBlock.__bool__ b
    then SrtBlock.idx b ++ [NL] ++ SrtBlock._time b ++ [NL] ++ block_body b
    else [].
Proof.
  destruct (SrtBlock.__bool__ b) eqn:E.
  - apply block_str_shape. unfold SrtBlock.__bool__ in E.
    destruct (SrtBlock.lines b); [discriminate | discriminate].
  - unfold SrtBlock.__str__. now rewrite E.
Qed.

(** X10: a Span whose text was emptied stays in its Line: the Line still
    counts as present, and its rendering still has the space that
    separates that Span from the one before. *)
Theorem emptied_span_keeps_separator (ic : bool) (fs : list SrtFrase.t)
    (f : SrtFrase.t) :
  fs <> [] ->
  SrtFrase.text f = [] ->
  SrtLine.__str__ (SrtLine.Build ic (fs ++ [f]))
  = SrtLine.__str__ (SrtLine.Build ic fs) ++ py " "
  /\ SrtLine.__bool__ (SrtLine.Build ic (fs ++ [f])) = true.
Proof.
  intros Hne Ht. unfold SrtLine.__str__, SrtLine.__bool__.
  cbn [SrtLine._frases].
  destruct fs as [|x fs]; [contradiction|]. split; [|reflexivity].
  change ((x :: fs) ++ [f]) with (x :: fs ++ [f]) at 1.
  cbv iota beta.
  change (x :: fs ++ [f]) with ((x :: fs) ++ [f]).
  rewrite map_app.
  change (map SrtFrase.__str__ [f]) with [SrtFrase.__str__ f].
  rewrite join_snoc by (simpl; discriminate).
  unfold SrtFrase.__str__ at 2. unfold SrtFrase.text in Ht. rewrite Ht.
  cbn [non_empty]. now rewrite app_nil_r.
Qed.

Lemma emptied_span_keeps_separator_witness :
  let a := SrtFrase.Build false [] (py "Hi") [] in
  let e := SrtFrase.Build false (py "<font>") [] (py "</font>") in
  SrtLine.__str__ (SrtLine.Build false ([a] ++ [e]))
  = SrtLine.__str__ (SrtLine.Build false [a]) ++ py " "
  /\ SrtLine.__bool__ (SrtLine.Build false ([a] ++ [e])) = true.
Proof.
  intros a e. apply (emptied_span_keeps_separator false [a] e).
  - discriminate.
  - reflexivity.
Defined.

(* ===================================================================== *)
(** ** Splitting on one character, and searching *)
(* ===================================================================== *)

Section Splitting.

Variable c : char.

Lemma split_char_step x s cur :
  split_go [c] 0 (x :: s) cur
  = if (c =? x)%N then rev cur :: split_go [c] 0 s []
    else split_go [c] 0 s (x :: cur).
Proof. simpl. destruct (c =? x)%N; reflexivity. Qed.

Lemma count_cons x s :
  count c (x :: s) = if (c =? x)%N then S (count c s) else count c s.
Proof.
  unfold count. simpl. destruct (N.eq_dec x c) as [->|Hne].
  - now rewrite N.eqb_refl.
  - destruct (N.eqb_spec c x); [congruence | reflexivity].
Qed.

Lemma count_zero s : count c s = 0 <-> ~ In c s.
Proof. unfold count. symmetry. apply count_occ_not_In. Qed.

Lemma count_app s t : count c (s ++ t) = count c s + count c t.
Proof. apply count_occ_app. Qed.

Lemma char_in_count s : Utils.char_in c s = true <-> 1 <= count c s.
Proof.
  induction s as [|x s IH]; [simpl; split; [discriminate | unfold count; simpl; lia]|].
  rewrite count_cons. simpl. destruct (c =? x)%N; simpl; [|exact IH].
  split; [lia | reflexivity].
Qed.

Lemma split_char_length s :
  forall cur, length (split_go [c] 0 s cur) = S (count c s).
Proof.
  induction s as [|x s IH]; intros cur; [reflexivity|].
  rewrite split_char_step, count_cons.
  destruct (c =? x)%N; simpl; now rewrite IH.
Qed.

Lemma split_char_none s :
  ~ In c s -> forall cur, split_go [c] 0 s cur = [rev cur ++ s].
Proof.
  induction s as [|x s IH]; intros Hn cur.
  - simpl. now rewrite app_nil_r.
  - rewrite split_char_step.
    destruct (N.eqb_spec c x) as [->|Hne]; [exfalso; apply Hn; now left|].
    rewrite IH by (intros H; apply Hn; now right).
    simpl. now rewrite <- app_assoc.
Qed.

Lemma split_char_first k rest :
  ~ In c k ->
  forall cur,
    split_go [c] 0 (k ++ c :: rest) cur
    = (rev cur ++ k) :: split_go [c] 0 rest [].
Proof.
  induction k as [|x k IH]; intros Hn cur.
  - cbn [app]. rewrite split_char_step, N.eqb_refl. now rewrite app_nil_r.
  - cbn [app]. rewrite split_char_step.
    destruct (N.eqb_spec c x) as [->|Hne]; [exfalso; apply Hn; now left|].
    rewrite IH by (intros H; apply Hn; now right).
    simpl. now rewrite <- app_assoc.
Qed.

Lemma first_occurrence s :
  In c s -> exists k rest, s = k ++ c :: rest /\ ~ In c k.
Proof.
  induction s as [|x s IH]; [contradiction|]. intros Hin.
  destruct (N.eq_dec c x) as [<-|Hne].
  - exists [], s. auto.
  - destruct Hin as [-> | Hin]; [congruence|].
    destruct (IH Hin) as (k & rest & -> & Hk).
    exists (x :: k), rest. split; [reflexivity|].
    intros [H | H]; [congruence | contradiction].
Qed.

Lemma first_occurrence_unique k k' r r' :
  ~ In c k -> ~ In c k' -> k ++ c :: r = k' ++ c :: r' -> k = k' /\ r = r'.
Proof.
  revert k'. induction k as [|x k IH]; intros [|y k'] Hk Hk' E;
    simpl in E; inversion E; subst.
  - auto.
  - exfalso. apply Hk'. now left.
  - exfalso. apply Hk. now left.
  - destruct (IH k') as [-> ->]; auto;
      intros H; [apply Hk | apply Hk']; now right.
Qed.

Lemma split_char_two s k v :
  split [c] s = [k; v] <-> s = k ++ c :: v /\ ~ In c k /\ ~ In c v.
Proof.
  unfold split. split.
  - intros E. pose proof (split_char_length s []) as Hlen.
    rewrite E in Hlen. simpl in Hlen.
    assert (Hin : In c s).
    { destruct (in_dec N.eq_dec c s) as [H|H]; [exact H|].
      apply count_zero in H. lia. }
    destruct (first_occurrence s Hin) as (k0 & rest & -> & Hk0).
    rewrite (split_char_first _ _ Hk0) in E. simpl in E.
    inversion E as [[Hk Hv]]. subst k0.
    rewrite count_app, count_cons, N.eqb_refl in Hlen.
    assert (Hr : ~ In c rest) by (apply count_zero; lia).
    rewrite (split_char_none _ Hr) in Hv. simpl in Hv.
    inversion Hv; subst. auto.
  - intros (-> & Hk & Hv).
    rewrite (split_char_first _ _ Hk), (split_char_none _ Hv). reflexivity.
Qed.

Lemma split_char_three h m s :
  ~ In c h -> ~ In c m -> ~ In c s ->
  split [c] (h ++ c :: m ++ c :: s) = [h; m; s].
Proof.
  intros Hh Hm Hs. unfold split.
  rewrite (split_char_first _ _ Hh), (split_char_first _ _ Hm),
    (split_char_none _ Hs). reflexivity.
Qed.

End Splitting.

Section Searching.

Lemma starts_with_app p r : starts_with p (p ++ r) = true.
Proof. induction p; simpl; [reflexivity | now rewrite N.eqb_refl]. Qed.

Lemma str_in_prefix p r : Utils.str_in p (p ++ r) = true.
Proof.
  destruct p as [|x p]; [destruct r; reflexivity|].
  cbn [app Utils.str_in]. change (x :: p ++ r) with ((x :: p) ++ r).
  now rewrite starts_with_app.
Qed.

(** A separator that does not occur splits nothing. *)
Lemma split_absent sep s :
  Utils.str_in sep s = false ->
  forall cur, split_go sep 0 s cur = [rev cur ++ s].
Proof.
  induction s as [|x s IH]; intros Hn cur.
  - simpl. now rewrite app_nil_r.
  - cbn [Utils.str_in] in Hn. apply orb_false_iff in Hn.
    destruct Hn as [Hs Hn]. cbn [split_go]. rewrite Hs.
    rewrite (IH Hn). simpl. now rewrite <- app_assoc.
Qed.

Lemma str_eqb_eq a b : Utils.str_eqb a b = true <-> a = b.
Proof.
  revert b. induction a as [|x a IH]; intros [|y b]; simpl;
    try (split; [discriminate | discriminate]); [tauto|].
  rewrite andb_true_iff, N.eqb_eq, IH. split; [intros [-> ->] | intros H];
    [reflexivity | inversion H; auto].
Qed.

Lemma str_eqb_refl a : Utils.str_eqb a a = true.
Proof. now apply str_eqb_eq. Qed.

Lemma str_eqb_neq a b : a <> b -> Utils.str_eqb a b = false.
Proof.
  intros H. destruct (Utils.str_eqb a b) eqn:E; [|reflexivity].
  apply str_eqb_eq in E. contradiction.
Qed.

Lemma dict_get_set key k v d :
  Utils.dict_get key (Utils.dict_set k v d)
  = if Utils.str_eqb k key then Some v else Utils.dict_get key d.
Proof.
  induction d as [|[k0 v0] d IH]; [reflexivity|].
  cbn [Utils.dict_set Utils.dict_get].
  destruct (Utils.str_eqb k0 k) eqn:E0.
  - apply str_eqb_eq in E0. subst k0. cbn [Utils.dict_get].
    destruct (Utils.str_eqb k key); reflexivity.
  - cbn [Utils.dict_get]. rewrite IH.
    destruct (Utils.str_eqb k0 key) eqn:E1; [|reflexivity].
    apply str_eqb_eq in E1. subst k0.
    destruct (Utils.str_eqb k key) eqn:E2; [|reflexivity].
    apply str_eqb_eq in E2. subst k. rewrite str_eqb_refl in E0.
    discriminate.
Qed.

End Searching.

(* ===================================================================== *)
(** ** Progress lines and durations *)
(* ===================================================================== *)

Section Progress.

Lemma fill_one_part part parts d :
  Utils.fill_progress (part :: parts) d
  = if Utils.char_in EQ part then
      match split [EQ] part with
      | [key; value] => Utils.fill_progress parts (Utils.dict_set key value d)
      | _ => Utils.Throw Utils.ValueError
      end
    else Utils.fill_progress parts d.
Proof. reflexivity. Qed.

(** What one part does to the loop, by the number of [=] in it. *)
Lemma fill_part_cases part parts d :
  (count EQ part = 0 /\
   Utils.fill_progress (part :: parts) d = Utils.fill_progress parts d)
  \/ (exists key value,
         part = key ++ EQ :: value /\ ~ In EQ key /\ ~ In EQ value /\
         Utils.fill_progress (part :: parts) d
         = Utils.fill_progress parts (Utils.dict_set key value d))
  \/ (2 <= count EQ part /\
      Utils.fill_progress (part :: parts) d = Utils.Throw Utils.ValueError).
Proof.
  rewrite fill_one_part.
  destruct (Utils.char_in EQ part) eqn:Ec.
  - apply char_in_count in Ec.
    pose proof (split_char_length EQ part []) as Hlen.
    fold (split [EQ] part) in Hlen.
    destruct (split [EQ] part) as [|k [|v [|w rest]]] eqn:Es;
      simpl in Hlen.
    + lia.
    + lia.
    + right. left. apply split_char_two in Es.
      destruct Es as (-> & Hk & Hv). exists k, v. auto.
    + right. right. split; [lia | reflexivity].
  - left. split; [|reflexivity].
    destruct (count EQ part) eqn:E; [reflexivity|].
    assert (H : Utils.char_in EQ part = true) by (apply char_in_count; lia).
    congruence.
Qed.

Lemma binds_count key value part :
  binds key value part -> count EQ part = S (count EQ key + count EQ value).
Proof.
  unfold binds. intros ->. rewrite count_app, count_cons, N.eqb_refl. lia.
Qed.

Lemma fill_raises parts :
  forall d,
    Exists (fun part => 2 <= count EQ part) parts ->
    Utils.fill_progress parts d = Utils.Throw Utils.ValueError.
Proof.
  induction parts as [|part parts IH]; intros d H; inversion H; subst.
  - destruct (fill_part_cases part parts d)
      as [[Hc _] | [(k & v & -> & Hk & Hv & _) | [_ E]]]; [lia | | exact E].
    rewrite count_app, count_cons, N.eqb_refl in H1.
    apply count_zero in Hk, Hv. lia.
  - destruct (fill_part_cases part parts d)
      as [[_ E] | [(k & v & _ & _ & _ & E) | [_ E]]]; rewrite E; auto.
Qed.

Lemma fill_returns parts :
  forall d,
    Forall (fun part => count EQ part <= 1) parts ->
    exists d', Utils.fill_progress parts d = Utils.Ret d'.
Proof.
  induction parts as [|part parts IH]; intros d H; inversion H; subst.
  - now exists d.
  - destruct (fill_part_cases part parts d)
      as [[_ E] | [(k & v & _ & _ & _ & E) | [Hc _]]]; [| | lia];
      rewrite E; auto.
Qed.

(** After the loop a key has the value of the last part that gives it
    one, and the value it had before when no part does. *)
Lemma fill_get parts :
  forall d0 d,
    Utils.fill_progress parts d0 = Utils.Ret d ->
    forall key value,
      Utils.dict_get key d = Some value <->
      (exists pre post,
          parts = pre ++ (key ++ EQ :: value) :: post /\ unbound key post)
      \/ (unbound key parts /\ Utils.dict_get key d0 = Some value).
Proof.
  induction parts as [|part parts IH]; intros d0 d Hfill key value.
  - inversion Hfill; subst. split.
    + intros H. right. split; [|exact H]. intros v p [].
    + intros [(pre & post & E & _) | [_ H]]; [|exact H].
      now destruct pre.
  - destruct (fill_part_cases part parts d0)
      as [[Hc E] | [(k & v & -> & Hk & Hv & E) | [_ E]]];
      rewrite E in Hfill; [| |discriminate].
    + (* the part has no [=] *)
      assert (Hnb : forall key' value', ~ binds key' value' part).
      { intros key' value' Hb. apply binds_count in Hb. lia. }
      rewrite (IH _ _ Hfill key value). split.
      * intros [(pre & post & -> & Hu) | [Hu Hg]].
        -- left. exists (part :: pre), post. auto.
        -- right. split; [|exact Hg].
           intros v' p [<- | Hin]; [apply Hnb | now apply Hu].
      * intros [(pre & post & Ep & Hu) | [Hu Hg]].
        -- destruct pre as [|p pre]; simpl in Ep; inversion Ep; subst.
           ++ exfalso. now apply (Hnb key value).
           ++ left. now exists pre, post.
        -- right. split; [|exact Hg].
           intros v' p Hin. apply Hu. now right.
    + (* the part is [k=v] *)
      rewrite (IH _ _ Hfill key value), dict_get_set.
      assert (Hsame : forall key' value',
                 binds key' value' (k ++ EQ :: v) -> key' = k /\ value' = v).
      { intros key' value' Hb. pose proof (binds_count _ _ _ Hb) as Hcnt.
        rewrite count_app, count_cons, N.eqb_refl in Hcnt.
        apply count_zero in Hk, Hv.
        assert (Hk' : ~ In EQ key') by (apply count_zero; lia).
        unfold binds in Hb. symmetry in Hb.
        apply first_occurrence_unique in Hb; auto.
        now apply count_zero. }
      split.
      * intros [(pre & post & -> & Hu) | [Hu Hg]].
        -- left. exists ((k ++ EQ :: v) :: pre), post. auto.
        -- destruct (Utils.str_eqb k key) eqn:Ek.
           ++ apply str_eqb_eq in Ek. subst key. inversion Hg; subst.
              left. now exists [], parts.
           ++ right. split; [|exact Hg].
              intros v' p [<- | Hin]; [|now apply Hu].
              intros Hb. apply Hsame in Hb. destruct Hb as [-> _].
              rewrite str_eqb_refl in Ek. discriminate.
      * intros [(pre & post & Ep & Hu) | [Hu Hg]].
        -- destruct pre as [|p pre]; simpl in Ep; inversion Ep; subst.
           ++ right. split; [exact Hu|].
              destruct (Hsame key value H0) as [-> ->].
              now rewrite str_eqb_refl.
           ++ left. now exists pre, post.
        -- right. split; [intros v' p Hin; apply Hu; now right|].
           rewrite str_eqb_neq; [exact Hg|].
           intros <-. apply (Hu v (k ++ EQ :: v)); [now left | reflexivity].
Qed.

End Progress.

(** X11: [extract_progress_info] returns [None] for a line without
    [time=].  For a line with it, the call raises ValueError when one of
    the parts between white space has two or more [=], and returns a
    dict when no part has. *)
Theorem progress_info_outcome (line : str) :
  (Utils.str_in (py "time=") line = false ->
   Utils.extract_progress_info line = Utils.Ret None)
  /\ (Utils.str_in (py "time=") line = true ->
      Exists (fun part => 2 <= count EQ part) (Utils.split_ws (strip line)) ->
      Utils.extract_progress_info line = Utils.Throw Utils.ValueError)
  /\ (Utils.str_in (py "time=") line = true ->
      Forall (fun part => count EQ part <= 1) (Utils.split_ws (strip line)) ->
      exists d, Utils.extract_progress_info line = Utils.Ret (Some d)).
Proof.
  unfold Utils.extract_progress_info. repeat split.
  - intros ->. reflexivity.
  - intros -> H. cbn [negb]. now rewrite (fill_raises _ _ H).
  - intros -> H. cbn [negb]. destruct (fill_returns _ [] H) as (d & ->).
    now exists d.
Qed.

Lemma progress_info_outcome_witness :
  Utils.extract_progress_info (py "size=1kB") = Utils.Ret None
  /\ Utils.extract_progress_info (py "size=1kB time=00:01 a=b=c")
     = Utils.Throw Utils.ValueError
  /\ exists d, Utils.extract_progress_info (py "frame= 10 time=00:01")
               = Utils.Ret (Some d).
Proof.
  split; [|split].
  - apply (proj1 (progress_info_outcome (py "size=1kB"))). reflexivity.
  - apply (proj1 (proj2 (progress_info_outcome
                            (py "size=1kB time=00:01 a=b=c"))));
      [reflexivity|].
    vm_compute. apply Exists_cons_tl, Exists_cons_tl, Exists_cons_hd.
    apply le_n.
  - apply (proj2 (proj2 (progress_info_outcome
                            (py "frame= 10 time=00:01"))));
      [reflexivity|].
    vm_compute. repeat apply Forall_cons; try apply Forall_nil.
    + apply le_n.
    + apply le_S, le_n.
    + apply le_n.
Defined.

(** X12: in the dict that [extract_progress_info] returns, a key has a
    value exactly when some part of the line is [key=value], and the
    value is that of the last such part. *)
Theorem progress_info_last_wins (line : str) (d : Utils.dict) :
  Utils.extract_progress_info line = Utils.Ret (Some d) ->
  forall key value,
    Utils.dict_get key d = Some value <->
    exists pre post,
      Utils.split_ws (strip line) = pre ++ (key ++ EQ :: value) :: post /\
      unbound key post.
Proof.
  unfold Utils.extract_progress_info. intros H key value.
  destruct (negb (Utils.str_in (py "time=") line)); [discriminate|].
  destruct (Utils.fill_progress (Utils.split_ws (strip line)) [])
    as [d'|e] eqn:E; [|discriminate].
  inversion H; subst d'. rewrite (fill_get _ _ _ E key value).
  split; [intros [H1 | [_ H1]]; [exact H1 | discriminate] | auto].
Qed.

Lemma progress_info_last_wins_witness :
  Utils.dict_get (py "time") [(py "time", py "00:02"); (py "fps", [])]
  = Some (py "00:02") <->
  exists pre post,
    Utils.split_ws (strip (py " time=00:01 fps= 25 time=00:02 "))
    = pre ++ (py "time" ++ EQ :: py "00:02") :: post /\
    unbound (py "time") post.
Proof.
  apply (progress_info_last_wins (py " time=00:01 fps= 25 time=00:02 ")
           [(py "time", py "00:02"); (py "fps", [])]).
  vm_compute. reflexivity.
Defined.

(* ===================================================================== *)
(** ** Durations *)
(* ===================================================================== *)

Section Durations.

Variable int : str -> option Z.
Variable num : Type.
Variable of_int : Z -> num.
Variable truediv : num -> num -> Utils.res num.
Variable add : num -> num -> Utils.res num.

Local Abbreviation duration :=
  (Utils.duration_str_to_seconds int num of_int truediv add).
Local Abbreviation video_duration :=
  (Utils.get_video_duration int num of_int truediv add).
Local Abbreviation scan := (Utils.scan_duration int num of_int truediv add).

Lemma duration_needs_two_colons s :
  count (ch ":") s <> 2 -> duration s = Utils.Throw Utils.ValueError.
Proof.
  intros Hc. unfold Utils.duration_str_to_seconds.
  pose proof (split_char_length (ch ":") s []) as Hlen.
  fold (split [ch ":"] s) in Hlen.
  destruct (split [ch ":"] s) as [|h [|m [|sec [|x rest]]]];
    try reflexivity.
  cbn [length] in Hlen. lia.
Qed.

Lemma duration_of_fields h m sec :
  ~ In (ch ":") h -> ~ In (ch ":") m -> ~ In (ch ":") sec ->
  duration (h ++ ch ":" :: m ++ ch ":" :: sec)
  = match split [ch "."] sec with
    | [s; ms] =>
        Utils.and_then (Utils.int_of int h) (fun h =>
        Utils.and_then (Utils.int_of int m) (fun m =>
        Utils.and_then (Utils.int_of int s) (fun s =>
        Utils.and_then (Utils.int_of int ms) (fun ms =>
        Utils.and_then (truediv (of_int ms) (of_int 100)) (fun frac =>
        add (of_int (h * 3600 + m * 60 + s)) frac)))))
    | _ => Utils.Throw Utils.ValueError
    end.
Proof.
  intros Hh Hm Hs. unfold Utils.duration_str_to_seconds.
  now rewrite (split_char_three _ _ _ _ Hh Hm Hs).
Qed.

Lemma duration_needs_one_dot h m sec :
  ~ In (ch ":") h -> ~ In (ch ":") m -> ~ In (ch ":") sec ->
  count (ch ".") sec <> 1 ->
  duration (h ++ ch ":" :: m ++ ch ":" :: sec) = Utils.Throw Utils.ValueError.
Proof.
  intros Hh Hm Hs Hc. rewrite (duration_of_fields _ _ _ Hh Hm Hs).
  pose proof (split_char_length (ch ".") sec []) as Hlen.
  fold (split [ch "."] sec) in Hlen.
  destruct (split [ch "."] sec) as [|a [|b [|x rest]]]; try reflexivity.
  cbn [length] in Hlen. lia.
Qed.

Lemma scan_skips pre :
  Forall (fun l => Utils.str_in (py "Duration") l = false) pre ->
  forall rest, scan (pre ++ rest) = scan rest.
Proof.
  induction 1 as [|l pre Hl _ IH]; intros rest; [reflexivity|].
  cbn [app Utils.scan_duration].
  rewrite Hl. apply IH.
Qed.

Lemma scan_first line post :
  Utils.str_in (py "Duration") line = true ->
  scan (line :: post) = scan [line].
Proof.
  intros Hl. cbn [Utils.scan_duration]. now rewrite Hl.
Qed.

Lemma scan_no_colon_space line :
  Utils.str_in (py "Duration") line = true ->
  Utils.str_in (py "Duration: ") line = false ->
  scan [line] = Utils.Throw Utils.IndexError.
Proof.
  intros Hl Hn. cbn [Utils.scan_duration]. rewrite Hl.
  unfold split. rewrite (split_absent _ _ Hn). reflexivity.
Qed.

(** X13: [duration_str_to_seconds] raises ValueError for every string
    that does not have exactly two [:], and for every string whose part
    behind the second [:] does not have exactly one [.]; for [h:m:s.ms]
    it is [int(h) * 3600 + int(m) * 60 + int(s) + int(ms) / 100], with
    ValueError when one of the four is no [int]. *)
Theorem duration_wants_h_m_s_ms :
  (forall s,
      count (ch ":") s <> 2 -> duration s = Utils.Throw Utils.ValueError)
  /\ (forall h m sec,
         ~ In (ch ":") h -> ~ In (ch ":") m -> ~ In (ch ":") sec ->
         count (ch ".") sec <> 1 ->
         duration (h ++ ch ":" :: m ++ ch ":" :: sec)
         = Utils.Throw Utils.ValueError)
  /\ (forall h m s ms,
         ~ In (ch ":") h -> ~ In (ch ":") m ->
         ~ In (ch ":") s -> ~ In (ch ":") ms ->
         ~ In (ch ".") s -> ~ In (ch ".") ms ->
         duration (h ++ ch ":" :: m ++ ch ":" :: s ++ ch "." :: ms)
         = match int h, int m, int s, int ms with
           | Some h, Some m, Some s, Some ms =>
               Utils.and_then (truediv (of_int ms) (of_int 100))
                 (add (of_int (h * 3600 + m * 60 + s)))
           | _, _, _, _ => Utils.Throw Utils.ValueError
           end).
Proof.
  split; [exact duration_needs_two_colons|].
  split; [exact duration_needs_one_dot|].
  intros h m s ms Hh Hm Hs Hms Ds Dms.
  rewrite duration_of_fields; auto.
  - replace (split [ch "."] (s ++ ch "." :: ms)) with [s; ms]
      by (symmetry; apply split_char_two; auto).
    unfold Utils.int_of.
    destruct (int h); [|reflexivity]. cbn [Utils.and_then].
    destruct (int m); [|reflexivity]. cbn [Utils.and_then].
    destruct (int s); [|reflexivity]. cbn [Utils.and_then].
    destruct (int ms); reflexivity.
  - intros H. apply in_app_or in H. destruct H as [H | [H | H]];
      [contradiction | discriminate H | contradiction].
Qed.

(** X14: [get_video_duration] returns [None] when no line of the text
    has [Duration] in it.  Otherwise only the first line that has
    [Duration] in it counts, and when that line does not have
    [Duration: ], with the colon and the space, the call raises
    IndexError. *)
Theorem video_duration_first_line :
  (forall stderr,
      Forall (fun l => Utils.str_in (py "Duration") l = false)
             (Utils.splitlines stderr) ->
      video_duration stderr = Utils.Ret None)
  /\ (forall stderr pre line post,
         Utils.splitlines stderr = pre ++ line :: post ->
         Forall (fun l => Utils.str_in (py "Duration") l = false) pre ->
         Utils.str_in (py "Duration") line = true ->
         video_duration stderr = scan [line]
         /\ (Utils.str_in (py "Duration: ") line = false ->
             video_duration stderr = Utils.Throw Utils.IndexError)).
Proof.
  split.
  - intros stderr F. unfold Utils.get_video_duration.
    rewrite <- (app_nil_r (Utils.splitlines stderr)).
    now rewrite (scan_skips _ F).
  - intros stderr pre line post E F Hl.
    assert (Hv : video_duration stderr = scan [line]).
    { unfold Utils.get_video_duration.
      rewrite E, (scan_skips _ F). now apply scan_first. }
    split; [exact Hv|]. intros Hn. rewrite Hv. now apply scan_no_colon_space.
Qed.

End Durations.

Ltac not_in :=
  let H := fresh in
  intros H; vm_compute in H;
  repeat (destruct H as [H | H]; [discriminate H|]); exact H.

Lemma duration_wants_h_m_s_ms_witness :
  let int := fun s : str => Some (Z.of_nat (length s)) in
  let truediv := fun a b : Z => Utils.Ret (a / b)%Z in
  let add := fun a b : Z => Utils.Ret (a + b)%Z in
  Utils.duration_str_to_seconds int Z (fun z => z) truediv add (py "N/A")
  = Utils.Throw Utils.ValueError
  /\ Utils.duration_str_to_seconds int Z (fun z => z) truediv add
       (py "1" ++ ch ":" :: py "02" ++ ch ":" :: py "03")
     = Utils.Throw Utils.ValueError
  /\ Utils.duration_str_to_seconds int Z (fun z => z) truediv add
       (py "1" ++ ch ":" :: py "02" ++ ch ":" :: py "03" ++ ch "." :: py "50")
     = match int (py "1"), int (py "02"), int (py "03"), int (py "50") with
       | Some h, Some m, Some s, Some ms =>
           Utils.and_then (truediv ms 100%Z) (add (h * 3600 + m * 60 + s)%Z)
       | _, _, _, _ => Utils.Throw Utils.ValueError
       end.
Proof.
  intros int truediv add.
  pose proof (duration_wants_h_m_s_ms int Z (fun z => z) truediv add)
    as (H1 & H2 & H3).
  split; [|split].
  - apply H1. vm_compute. discriminate.
  - apply H2; try not_in. vm_compute. discriminate.
  - apply H3; not_in.
Defined.

Lemma video_duration_first_line_witness :
  let int := fun s : str => Some (Z.of_nat (length s)) in
  let truediv := fun a b : Z => Utils.Ret (a / b)%Z in
  let add := fun a b : Z => Utils.Ret (a + b)%Z in
  Utils.get_video_duration int Z (fun z => z) truediv add
    (py "no such file" ++ [NL] ++ py "at all")
  = Utils.Ret None
  /\ Utils.get_video_duration int Z (fun z => z) truediv add
       (py "Input #0" ++ [NL] ++ py "Invalid Duration given" ++ [NL]
        ++ py "  Duration: 00:01:02.50, start: 0")
     = Utils.Throw Utils.IndexError.
Proof.
  intros int truediv add.
  pose proof (video_duration_first_line int Z (fun z => z) truediv add)
    as (H1 & H2).
  split.
  - apply H1. vm_compute. repeat constructor.
  - apply (H2 _ [py "Input #0"] (py "Invalid Duration given")
              [py "  Duration: 00:01:02.50, start: 0"]);
      try (vm_compute; reflexivity).
    vm_compute. repeat constructor.
Defined.

(* ===================================================================== *)
(** ** The player callbacks *)
(* ===================================================================== *)

Section Callbacks.

Lemma handle_all_app self cbs cbs' :
  fst (Service.handle_all self (cbs ++ cbs'))
  = fst (Service.handle_all (fst (Service.handle_all self cbs)) cbs').
Proof.
  revert self. induction cbs as [|cb cbs IH]; intros self; [reflexivity|].
  cbn [app Service.handle_all].
  destruct (Service.handle self cb) as [self' called]. specialize (IH self').
  destruct (Service.handle_all self' (cbs ++ cbs')) as [s1 c1].
  destruct (Service.handle_all self' cbs) as [s2 c2]. exact IH.
Qed.

(** Only a pause during the subtitle search, with [run_on_pause] set,
    sets the flag. *)
Lemma flag_stays_down cbs :
  forall self,
    ~ In (Service.onPlayBackPaused true true) cbs ->
    Service._subtitles_may_be_downloaded self = false ->
    Service._subtitles_may_be_downloaded (fst (Service.handle_all self cbs))
    = false.
Proof.
  induction cbs as [|cb cbs IH]; intros self Hn Hf; [exact Hf|].
  cbn [Service.handle_all].
  destruct (Service.handle self cb) as [self' called] eqn:E.
  specialize (IH self').
  destruct (Service.handle_all self' cbs) as [s1 c1]. cbn [fst] in *.
  apply IH; [intros H; apply Hn; now right|].
  destruct cb as [rs | rp sa | rp]; cbn [Service.handle] in E.
  - destruct rs; inversion E; subst; exact Hf.
  - destruct rp, sa; inversion E; subst; try exact Hf.
    exfalso. apply Hn. now left.
  - rewrite Hf, andb_false_r in E. inversion E; subst. exact Hf.
Qed.

End Callbacks.

(** X15: once a resume has started the translation, no later resume
    starts it again unless the player was paused in between while the
    subtitle search was open and [run_on_pause] was set. *)
Theorem resume_translates_once (self : Service.PlayerMonitor)
    (rp rp' : bool) (between : list Service.callback) :
  snd (Service.handle self (Service.onPlayBackResumed rp)) = true ->
  ~ In (Service.onPlayBackPaused true true) between ->
  snd (Service.handle
         (fst (Service.handle_all
                 (fst (Service.handle self (Service.onPlayBackResumed rp)))
                 between))
         (Service.onPlayBackResumed rp'))
  = false.
Proof.
  intros H Hn. cbn [Service.handle] in *.
  destruct (rp && Service._subtitles_may_be_downloaded self);
    [|discriminate].
  cbn [fst].
  rewrite (flag_stays_down between (Service.Build false) Hn eq_refl),
    andb_false_r. reflexivity.
Qed.

Lemma resume_translates_once_witness :
  snd (Service.handle
         (fst (Service.handle_all
                 (fst (Service.handle (Service.Build true)
                         (Service.onPlayBackResumed true)))
                 [Service.onPlayBackPaused true false;
                  Service.onAVStarted true]))
         (Service.onPlayBackResumed true))
  = false.
Proof.
  apply (resume_translates_once (Service.Build true) true true).
  - reflexivity.
  - intros [H | [H | []]]; discriminate H.
Defined.

(** X16: counted from a new [PlayerMonitor], a resume starts the
    translation only with [run_on_pause] set and after a pause during
    which the subtitle search was open and [run_on_pause] was set. *)
Theorem resume_needs_search_pause (before : list Service.callback)
    (rp : bool) :
  snd (Service.handle (fst (Service.handle_all Service.__init__ before))
         (Service.onPlayBackResumed rp)) = true ->
  rp = true /\ In (Service.onPlayBackPaused true true) before.
Proof.
  intros H. cbn [Service.handle] in H.
  destruct rp; [|discriminate]. split; [reflexivity|].
  destruct (in_dec (fun a b : Service.callback =>
                      ltac:(decide equality; apply bool_dec))
                   (Service.onPlayBackPaused true true) before)
    as [Hin | Hn]; [exact Hin|].
  rewrite (flag_stays_down before Service.__init__ Hn eq_refl) in H.
  discriminate.
Qed.

Lemma resume_needs_search_pause_witness :
  true = true
  /\ In (Service.onPlayBackPaused true true)
        [Service.onAVStarted false; Service.onPlayBackPaused true true].
Proof.
  apply (resume_needs_search_pause
           [Service.onAVStarted false; Service.onPlayBackPaused true true]
           true).
  reflexivity.
Defined.

(** X17: the video id that [_execute_subtitles_translation] takes from
    the name of the playing file is the part of the name before its first
    [?]: taking it never raises, it has no [?], and as long as the same
    file is playing the check that another file was started lets the
    method go on. *)
Theorem video_id_is_name_before_query (playing_file : str) :
  exists video_file rest,
    Service.video_file_of playing_file = Utils.Ret video_file /\
    playing_file = video_file ++ rest /\
    (rest = [] \/ exists query, rest = ch "?" :: query) /\
    ~ In (ch "?") video_file /\
    Service.still_playing video_file playing_file = true.
Proof.
  unfold Service.video_file_of, Service.still_playing, split.
  destruct (in_dec N.eq_dec (ch "?") playing_file) as [Hin | Hn].
  - destruct (first_occurrence _ _ Hin) as (k & query & -> & Hk).
    exists k, (ch "?" :: query).
    rewrite (split_char_first _ _ _ Hk). cbn [Utils.item nth_error rev app].
    repeat split; eauto. apply str_in_prefix.
  - exists playing_file, []. rewrite (split_char_none _ _ Hn).
    cbn [Utils.item nth_error rev app]. rewrite app_nil_r.
    repeat split; auto.
    rewrite <- (app_nil_r playing_file) at 2. apply str_in_prefix.
Qed.
